(** * gnmic [cmd/root.go]: connection set-up, path rendering, value decoding
    and the output fan-in, embedded in Rocq.

    Go data is modelled as the code has it: strings are byte strings
    ([string]), [[]byte] is [list byte], [map[string]T] is [gmap string T],
    a nilable pointer or interface is an [option], and a function that
    returns [(T, error)] returns a pair whose second component is
    [option error] ([None] is Go's [nil] error). *)

From Stdlib Require Import ZArith Strings.Byte Ascii String.
From Stdlib Require Import SpecFloat.
From stdpp Require Import base option list list_monad strings gmap.

Local Open Scope string_scope.
Local Open Scope list_scope.

(** ** Go errors *)

(** The dynamic error values the functions of [root.go] can return.  The
    message and offset carried by the [encoding/json] errors are not
    modelled, only their kind. *)
Inductive error : Type :=
  | errorString (msg : string)          (* errors.New(msg) *)
  | json_SyntaxError                    (* *json.SyntaxError *)
  | json_UnmarshalTypeError (lit : string) (* *json.UnmarshalTypeError *)
  | lib_error (pkg msg : string).       (* an error of another package *)

(** [float32] and [float64] payloads are IEEE 754 values. *)
Definition float32 : Type := spec_float.
Definition float64 : Type := spec_float.

(** ** The gnmi protobuf messages read by [root.go] *)

Module gnmi.

(** [message PathElem { string name = 1; map<string,string> key = 2; }].
    A Go map can be [nil]; a nil map and an empty map range alike. *)
Record PathElem : Type := {
  Name : string;
  Key : option (gmap string string)
}.

(** [message Path { ...; repeated PathElem elem = 3; }]: a slice of
    pointers, each of which may be nil. *)
Record Path : Type := {
  Elem : list (option PathElem)
}.

(** [message Decimal64 { int64 digits = 1; uint32 precision = 2; }] *)
Record Decimal64 : Type := {
  Digits : Z;
  Precision : Z
}.

(** [google.golang.org/protobuf/types/known/anypb.Any] *)
Record Any : Type := {
  TypeUrl : string;
  AnyValue : list byte
}.

(** [message TypedValue { oneof value { ... } }]: the field [Value] is an
    interface, nil when no variant is set, and otherwise a pointer to one
    of the thirteen wrapper structs the type switch of [getValue] lists
    (the wrappers themselves are never nil pointers in a decoded message).
    [message ScalarArray { repeated TypedValue element = 1; }] makes the
    type recursive. *)
Inductive TypedValue : Type :=
  | Build_TypedValue (Value : option isTypedValue_Value)
with isTypedValue_Value : Type :=
  | TypedValue_StringVal (StringVal : string)
  | TypedValue_IntVal (IntVal : Z)
  | TypedValue_UintVal (UintVal : Z)
  | TypedValue_BoolVal (BoolVal : bool)
  | TypedValue_BytesVal (BytesVal : list byte)
  | TypedValue_FloatVal (FloatVal : float32)
  | TypedValue_DecimalVal (DecimalVal : option Decimal64)
  | TypedValue_LeaflistVal (LeaflistVal : option ScalarArray)
  | TypedValue_AnyVal (AnyVal : option Any)
  | TypedValue_JsonVal (JsonVal : list byte)
  | TypedValue_JsonIetfVal (JsonIetfVal : list byte)
  | TypedValue_AsciiVal (AsciiVal : string)
  | TypedValue_ProtoBytes (ProtoBytes : list byte)
with ScalarArray : Type :=
  | Build_ScalarArray (Element : list (option TypedValue)).

Definition Value (tv : TypedValue) : option isTypedValue_Value :=
  match tv with Build_TypedValue v => v end.

(** The generated getters are nil-receiver safe. *)
Definition GetElem (p : option Path) : list (option PathElem) :=
  match p with
  | Some p => Elem p
  | None => []
  end.

Definition GetName (pe : option PathElem) : string :=
  match pe with
  | Some pe => Name pe
  | None => ""
  end.

Definition GetKey (pe : option PathElem) : option (gmap string string) :=
  match pe with
  | Some pe => Key pe
  | None => None
  end.

End gnmi.

(** ** [gnmiPathToXPath] *)

(** [strings.Join(elems, sep)]. *)
Fixpoint strings_Join (elems : list string) (sep : string) : string :=
  match elems with
  | [] => ""
  | [e] => e
  | e :: rest => (e ++ sep ++ strings_Join rest sep)%string
  end.

(** [fmt.Sprintf("[%s=%s]", k, v)]. *)
Definition Sprintf_key (k v : string) : string :=
  ("[" ++ k ++ "=" ++ v ++ "]")%string.

(** [for k, v := range m]: Go leaves the iteration order of a map
    unspecified, and it may differ from one loop to the next.  A [range]
    therefore yields the entries in any one of their orders; the list of all
    of them is the set of possible behaviours.  Ranging over a nil map
    yields nothing. *)
Definition range_map (m : option (gmap string string))
  : list (list (string * string)) :=
  match m with
  | Some m => permutations (map_to_list m)
  | None => [[]]
  end.

(** The body of the inner loop, run over the entries in the order [kvs]. *)
Definition append_keys (elem : string) (kvs : list (string * string)) : string :=
  fold_left (fun elem kv => (elem ++ Sprintf_key kv.1 kv.2)%string) kvs elem.

(** One iteration of the outer loop: the possible values of [elem]. *)
Definition path_elem_strings (pe : option gnmi.PathElem) : list string :=
  let elem := "" in
  let elem := if decide (gnmi.GetName pe ≠ "") then (elem ++ gnmi.GetName pe)%string else elem in
  match gnmi.GetKey pe with
  | Some m => kvs ← range_map (Some m); [append_keys elem kvs]
  | None => [elem]
  end.

(** The outer loop, with [pathElems] the slice built so far. *)
Fixpoint path_loop (pes : list (option gnmi.PathElem)) (pathElems : list string)
  : list string :=
  match pes with
  | [] => [strings_Join pathElems "/"]
  | pe :: pes => elem ← path_elem_strings pe; path_loop pes (pathElems ++ [elem])
  end.

(** [gnmiPathToXPath p]: the list of strings a call may return (more than
    one only when some element has several keys). *)
Definition gnmiPathToXPath (p : option gnmi.Path) : list string :=
  match p with
  | None => [""]
  | Some _ => path_loop (gnmi.GetElem p) []
  end.

(** ** Dynamic values *)

(** A non-nil [interface{}] value: its dynamic type and the value of that
    type.  The nil interface is [None] of [option any]; an interface holding
    a nil pointer ([go_Decimal64 None]) is not nil. *)
Inductive any : Type :=
  | go_string (s : string)
  | go_bool (b : bool)
  | go_bytes (b : list byte)
  | go_float32 (f : float32)
  | go_float64 (f : float64)
  | go_int64 (i : Z)
  | go_uint64 (u : Z)
  | go_Decimal64 (p : option gnmi.Decimal64)
  | go_ScalarArray (p : option gnmi.ScalarArray)
  | go_Any (p : option gnmi.Any)
  | go_slice (l : list (option any))            (* []interface{} *)
  | go_map (m : gmap string (option any)).      (* map[string]interface{} *)

(** ** Bytes and runes *)

#[global] Instance byte_eq_dec : EqDecision byte := Byte.byte_eq_dec.

Definition byte_to_Z (b : byte) : Z := Z.of_N (Byte.to_N b).

(** The conversion [byte(x)] of an integer: the low eight bits. *)
Definition byte_of_Z (z : Z) : byte :=
  match Byte.of_N (Z.to_N (z mod 256)) with
  | Some b => b
  | None => x00
  end.

(** [string(b)] for a byte slice [b]. *)
Definition string_of_bytes (b : list byte) : string :=
  string_of_list_byte b.

Module utf8.
Local Open Scope Z_scope.

Definition RuneError : Z := 0xFFFD.
Definition MaxRune : Z := 0x10FFFF.

(** [utf8.EncodeRune]: the bytes written for the rune [r]. *)
Definition EncodeRune (r : Z) : list byte :=
  let three (r : Z) :=
    [byte_of_Z (Z.lor 0xE0 (Z.shiftr r 12));
     byte_of_Z (Z.lor 0x80 (Z.land (Z.shiftr r 6) 0x3F));
     byte_of_Z (Z.lor 0x80 (Z.land r 0x3F))] in
  if decide (0 <= r <= 0x7F) then [byte_of_Z r]
  else if decide (0 <= r <= 0x7FF) then
    [byte_of_Z (Z.lor 0xC0 (Z.shiftr r 6));
     byte_of_Z (Z.lor 0x80 (Z.land r 0x3F))]
  else if decide (r < 0 ∨ MaxRune < r ∨ 0xD800 <= r <= 0xDFFF) then three RuneError
  else if decide (r <= 0xFFFF) then three r
  else
    [byte_of_Z (Z.lor 0xF0 (Z.shiftr r 18));
     byte_of_Z (Z.lor 0x80 (Z.land (Z.shiftr r 12) 0x3F));
     byte_of_Z (Z.lor 0x80 (Z.land (Z.shiftr r 6) 0x3F));
     byte_of_Z (Z.lor 0x80 (Z.land r 0x3F))].

(** The table [first] and [acceptRanges] of the package: for a leading
    byte, the length of the sequence and the range accepted for the
    second byte; [None] for a byte that cannot start a sequence of more
    than one byte. *)
Definition first (p0 : Z) : option (nat * Z * Z) :=
  if decide (0xC2 <= p0 <= 0xDF) then Some (2%nat, 0x80, 0xBF)
  else if decide (p0 = 0xE0) then Some (3%nat, 0xA0, 0xBF)
  else if decide (0xE1 <= p0 <= 0xEC) then Some (3%nat, 0x80, 0xBF)
  else if decide (p0 = 0xED) then Some (3%nat, 0x80, 0x9F)
  else if decide (0xEE <= p0 <= 0xEF) then Some (3%nat, 0x80, 0xBF)
  else if decide (p0 = 0xF0) then Some (4%nat, 0x90, 0xBF)
  else if decide (0xF1 <= p0 <= 0xF3) then Some (4%nat, 0x80, 0xBF)
  else if decide (p0 = 0xF4) then Some (4%nat, 0x80, 0x8F)
  else None.

Definition cont (b : Z) : bool := bool_decide (0x80 <= b <= 0xBF).

(** [utf8.DecodeRune p]: the rune and the number of bytes it takes. *)
Definition DecodeRune (p : list byte) : Z * nat :=
  match p with
  | [] => (RuneError, 0%nat)
  | c0 :: p1 =>
    let p0 := byte_to_Z c0 in
    if decide (p0 < 0x80) then (p0, 1%nat)
    else match first p0 with
    | None => (RuneError, 1%nat)
    | Some (sz, lo, hi) =>
      match sz, byte_to_Z <$> p1 with
      | 2%nat, b1 :: _ =>
        if bool_decide (lo <= b1 <= hi)
        then (Z.lor (Z.shiftl (Z.land p0 0x1F) 6) (Z.land b1 0x3F), 2%nat)
        else (RuneError, 1%nat)
      | 3%nat, b1 :: b2 :: _ =>
        if bool_decide (lo <= b1 <= hi) && cont b2
        then (Z.lor (Z.lor (Z.shiftl (Z.land p0 0x0F) 12)
                           (Z.shiftl (Z.land b1 0x3F) 6))
                    (Z.land b2 0x3F), 3%nat)
        else (RuneError, 1%nat)
      | 4%nat, b1 :: b2 :: b3 :: _ =>
        if bool_decide (lo <= b1 <= hi) && cont b2 && cont b3
        then (Z.lor (Z.lor (Z.lor (Z.shiftl (Z.land p0 0x07) 18)
                                  (Z.shiftl (Z.land b1 0x3F) 12))
                           (Z.shiftl (Z.land b2 0x3F) 6))
                    (Z.land b3 0x3F), 4%nat)
        else (RuneError, 1%nat)
      | _, _ => (RuneError, 1%nat)
      end
    end
  end.

End utf8.

Module utf16.
Local Open Scope Z_scope.

Definition IsSurrogate (r : Z) : bool := bool_decide (0xD800 <= r < 0xE000).

(** [utf16.DecodeRune r1 r2]: the code point of a surrogate pair, U+FFFD
    when the two are not a pair. *)
Definition DecodeRune (r1 r2 : Z) : Z :=
  if bool_decide (0xD800 <= r1 < 0xDC00) && bool_decide (0xDC00 <= r2 < 0xE000)
  then Z.lor (Z.shiftl (r1 - 0xD800) 10) (r2 - 0xDC00) + 0x10000
  else utf8.RuneError.

End utf16.

(** ** [strconv.ParseFloat(s, 64)] on a JSON number *)

Module strconv.
Local Open Scope Z_scope.
Local Open Scope list_scope.

(** The binary64 value nearest to [m * 10^e] for [0 < m], ties to even
    (the quotient of two integers, rounded once). *)
Definition round_decimal (neg : bool) (m e : Z) : float64 :=
  let num := m * 10 ^ Z.max e 0 in
  let den := 10 ^ Z.max (- e) 0 in
  let '(q, e', l) := SFdiv_core_binary 53 1024 num 0 den 0 in
  binary_round_aux 53 1024 neg q e' l.

(** The value of a decimal numeral. *)
Definition digit_value (c : byte) : Z := byte_to_Z c - 48.

Definition digits_value (ds : list byte) : Z :=
  fold_left (fun acc c => 10 * acc + digit_value c) ds 0.

Definition is_digit (c : byte) : bool :=
  bool_decide (48 <= byte_to_Z c <= 57).

(** The longest prefix of decimal digits, and what follows it. *)
Fixpoint span_digits (s : list byte) : list byte * list byte :=
  match s with
  | c :: s' =>
    if is_digit c
    then let '(ds, rest) := span_digits s' in (c :: ds, rest)
    else ([], s)
  | [] => ([], [])
  end.

(** What a sign in front of [s] says, and what follows it. *)
Definition read_sign (s : list byte) : bool * list byte :=
  match s with
  | c :: s' =>
    if decide (c = "-"%byte) then (true, s')
    else if decide (c = "+"%byte) then (false, s')
    else (false, s)
  | [] => (false, [])
  end.

(** [strconv.ParseFloat(s, 64)] on a decimal numeral
    [[+-]digits[.digits][(e|E)[+-]digits]]: the nearest binary64 value, or
    [None] where the library returns an error, which is when [s] is not
    such a numeral or when the rounded value is infinite (ErrRange). *)
Definition ParseFloat (s : list byte) : option float64 :=
  let '(neg, s1) := read_sign s in
  let '(ints, s2) := span_digits s1 in
  let '(fracs, s3) :=
    match s2 with
    | c :: s2' => if decide (c = "."%byte) then span_digits s2' else ([], s2)
    | [] => ([], [])
    end in
  let exponent : option (Z * list byte) :=
    match s3 with
    | c :: s3' =>
      if decide (c = "e"%byte ∨ c = "E"%byte) then
        let '(eneg, s4) := read_sign s3' in
        let '(eds, s5) := span_digits s4 in
        match eds with
        | [] => None
        | _ => Some (if eneg then - digits_value eds else digits_value eds, s5)
        end
      else Some (0, s3)
    | [] => Some (0, [])
    end in
  match ints ++ fracs, exponent with
  | _ :: _, Some (e, []) =>
    let m := digits_value (ints ++ fracs) in
    if decide (m = 0) then Some (S754_zero neg)
    else match round_decimal neg m (e - Z.of_nat (length fracs)) with
         | S754_infinity _ => None
         | f => Some f
         end
  | _, _ => None
  end.

End strconv.

(** ** [encoding/json]: [Unmarshal] into an empty interface *)

(** How a call ends.  [OutOfFuel] belongs to the embedding only: the loops
    of the JSON decoder below recurse on a bound on their passes, and they
    are shown never to reach it. *)
Inductive outcome (A : Type) : Type :=
  | Returns (a : A)
  | Panics
  | OutOfFuel.
Arguments Returns {A} a.
Arguments Panics {A}.
Arguments OutOfFuel {A}.

Module json.
Local Open Scope Z_scope.
Local Open Scope list_scope.

(** The library checks the whole input with its scanner and then decodes
    it, driving the same scanner again.  The two passes are fused here
    into one descent that accepts the same inputs and builds the same
    value; as in the library a syntax error anywhere in the input wins
    over everything the decoder would have reported. *)

Definition maxNestingDepth : nat := 10000.

Definition quote : byte := x22.
Definition backslash : byte := x5c.

(** [isSpace] *)
Definition isSpace (c : byte) : bool :=
  bool_decide (c = " "%byte ∨ c = x09 ∨ c = x0d ∨ c = x0a).

Fixpoint skip_space (s : list byte) : list byte :=
  match s with
  | c :: s' => if isSpace c then skip_space s' else s
  | [] => []
  end.

Definition hex_value (c : byte) : option Z :=
  let z := byte_to_Z c in
  if decide (48 <= z <= 57) then Some (z - 48)
  else if decide (97 <= z <= 102) then Some (z - 97 + 10)
  else if decide (65 <= z <= 70) then Some (z - 65 + 10)
  else None.

(** [getu4 s]: the rune of a leading [\uXXXX], [-1] when there is none. *)
Definition getu4 (s : list byte) : Z :=
  match s with
  | c0 :: c1 :: h1 :: h2 :: h3 :: h4 :: _ =>
    if decide (c0 = backslash ∧ c1 = "u"%byte) then
      match hex_value h1, hex_value h2, hex_value h3, hex_value h4 with
      | Some a, Some b, Some c, Some d => ((a * 16 + b) * 16 + c) * 16 + d
      | _, _, _, _ => -1
      end
    else -1
  | _ => -1
  end.

(** The simple escapes the scanner accepts after a backslash. *)
Definition simple_escape (c : byte) : option byte :=
  if decide (c = quote ∨ c = backslash ∨ c = "/"%byte) then Some c
  else if decide (c = "b"%byte) then Some x08
  else if decide (c = "f"%byte) then Some x0c
  else if decide (c = "n"%byte) then Some x0a
  else if decide (c = "r"%byte) then Some x0d
  else if decide (c = "t"%byte) then Some x09
  else None.

(** The scanner inside a string, after the opening quote: the bytes up
    to the closing quote and what follows it; [None] is a syntax error
    (a control character, a bad escape, or no closing quote). *)
Fixpoint scan_string (s : list byte) : option (list byte * list byte) :=
  match s with
  | [] => None
  | c :: s1 =>
    if decide (c = quote) then Some ([], s1)
    else if decide (c = backslash) then
      match s1 with
      | [] => None
      | e :: s2 =>
        if decide (e = "u"%byte) then
          match s2 with
          | h1 :: h2 :: h3 :: h4 :: s3 =>
            match hex_value h1, hex_value h2, hex_value h3, hex_value h4 with
            | Some _, Some _, Some _, Some _ =>
              match scan_string s3 with
              | Some (raw, rest) => Some (c :: e :: h1 :: h2 :: h3 :: h4 :: raw, rest)
              | None => None
              end
            | _, _, _, _ => None
            end
          | _ => None
          end
        else match simple_escape e with
        | Some _ =>
          match scan_string s2 with
          | Some (raw, rest) => Some (c :: e :: raw, rest)
          | None => None
          end
        | None => None
        end
      end
    else if decide (byte_to_Z c < 32) then None
    else
      match scan_string s1 with
      | Some (raw, rest) => Some (c :: raw, rest)
      | None => None
      end
  end.

(** [unquoteBytes] on the bytes between the quotes: escapes are
    replaced, surrogate pairs are combined and bytes that are not UTF-8
    become U+FFFD.  [skip] counts the bytes of [s] that belong to a
    sequence already handled.  [None] is the library's [ok = false]. *)
Fixpoint unquote (skip : nat) (s : list byte) : option (list byte) :=
  match s with
  | [] => Some []
  | c :: s1 =>
    match skip with
    | S k => unquote k s1
    | O =>
      if decide (c = backslash) then
        match s1 with
        | [] => None
        | e :: _ =>
          if decide (e = "u"%byte) then
            let rr := getu4 s in
            if decide (rr < 0) then None
            else if utf16.IsSurrogate rr then
              let dec := utf16.DecodeRune rr (getu4 (drop 6 s)) in
              if decide (dec ≠ utf8.RuneError)
              then (utf8.EncodeRune dec ++.) <$> unquote 11 s1
              else (utf8.EncodeRune utf8.RuneError ++.) <$> unquote 5 s1
            else (utf8.EncodeRune rr ++.) <$> unquote 5 s1
          else if decide (e = "'"%byte) then (e ::.) <$> unquote 1 s1
          else match simple_escape e with
               | Some b => (b ::.) <$> unquote 1 s1
               | None => None
               end
        end
      else if decide (c = quote ∨ byte_to_Z c < 32) then None
      else if decide (byte_to_Z c < 128) then (c ::.) <$> unquote 0 s1
      else
        let '(rr, size) := utf8.DecodeRune s in
        (utf8.EncodeRune rr ++.) <$> unquote (size - 1) s1
    end
  end.

(** The scanner on a number, part by part: each takes its part from the
    front of [s] and gives it with what follows; [None] is a syntax
    error. *)
Definition scan_minus (s : list byte) : list byte * list byte :=
  match s with
  | c :: s' => if decide (c = "-"%byte) then ([c], s') else ([], s)
  | [] => ([], [])
  end.

Definition scan_int (s : list byte) : option (list byte * list byte) :=
  match s with
  | [] => None
  | c :: s1 =>
    if decide (c = "0"%byte) then Some ([c], s1)
    else if strconv.is_digit c then
      let '(ds, s2) := strconv.span_digits s1 in Some (c :: ds, s2)
    else None
  end.

Definition scan_frac (s : list byte) : option (list byte * list byte) :=
  match s with
  | d :: s1 =>
    if decide (d = "."%byte) then
      match strconv.span_digits s1 with
      | ([], _) => None
      | (fs, s2) => Some (d :: fs, s2)
      end
    else Some ([], s)
  | [] => Some ([], [])
  end.

Definition scan_exp (s : list byte) : option (list byte * list byte) :=
  match s with
  | e :: s1 =>
    if decide (e = "e"%byte ∨ e = "E"%byte) then
      let '(esign, s2) :=
        match s1 with
        | g :: s1' =>
          if decide (g = "+"%byte ∨ g = "-"%byte) then ([g], s1') else ([], s1)
        | [] => ([], [])
        end in
      match strconv.span_digits s2 with
      | ([], _) => None
      | (es, s3) => Some (e :: esign ++ es, s3)
      end
    else Some ([], s)
  | [] => Some ([], [])
  end.

(** The number literal at the front of [s] and what follows it. *)
Definition scan_number (s : list byte) : option (list byte * list byte) :=
  let '(sign, s1) := scan_minus s in
  match scan_int s1 with
  | None => None
  | Some (ints, s2) =>
    match scan_frac s2 with
    | None => None
    | Some (frac, s3) =>
      match scan_exp s3 with
      | None => None
      | Some (exp, s4) => Some (sign ++ ints ++ frac ++ exp, s4)
      end
    end
  end.

(** [d.convertNumber]: the [float64] of a number literal, or nil and an
    [UnmarshalTypeError] to save. *)
Definition convertNumber (lit : list byte) : option any * option error :=
  match strconv.ParseFloat lit with
  | Some f => (Some (go_float64 f), None)
  | None => (None, Some (json_UnmarshalTypeError ("number " ++ string_of_bytes lit)%string))
  end.

(** [d.saveError]: the first error saved is kept. *)
Definition saveError (saved err : option error) : option error :=
  match saved with
  | Some e => Some e
  | None => err
  end.

(** A literal [lit] at the front of [s]. *)
Fixpoint expect (lit s : list byte) : option (list byte) :=
  match lit, s with
  | [], _ => Some s
  | l :: lit', c :: s' => if decide (c = l) then expect lit' s' else None
  | _ :: _, [] => None
  end.

(** The result of decoding one value: the value, the error saved so far
    and the rest of the input; a syntax error; or the decoder's panic. *)
Inductive result : Type :=
  | Ok (v : option any) (saved : option error) (rest : list byte)
  | SyntaxErr                      (* the input is not JSON *)
  | Panic                          (* the decoder's panic *)
  | NoFuel.                        (* a loop ran out of passes *)

Definition bytes_of_string (s : string) : list byte := list_byte_of_string s.

(** [arrayInterface]: the elements of an array, read from the front of
    an element on, [elems] having been read, each with [value].  A pass
    of the loop takes at least one byte; [n] bounds the passes. *)
Fixpoint array (value : option error -> list byte -> result) (n : nat)
  (elems : list (option any)) (saved : option error) (s : list byte)
  {struct n} : result :=
  match n with
  | O => NoFuel
  | S n =>
    match value saved s with
    | Ok v saved' s1 =>
      match skip_space s1 with
      | c :: s2 =>
        if decide (c = ","%byte) then
          array value n (elems ++ [v]) saved' (skip_space s2)
        else if decide (c = "]"%byte) then
          Ok (Some (go_slice (elems ++ [v]))) saved' s2
        else SyntaxErr
      | [] => SyntaxErr
      end
    | r => r
    end
  end.

(** [objectInterface]: the members of an object, read from the front of
    a key on, [m] having been stored. *)
Fixpoint object (value : option error -> list byte -> result) (n : nat)
  (m : gmap string (option any)) (saved : option error) (s : list byte)
  {struct n} : result :=
  match n with
  | O => NoFuel
  | S n =>
    match s with
    | c :: s1 =>
      if decide (c = quote) then
        match scan_string s1 with
        | Some (raw, s2) =>
          match unquote 0 raw with
          | Some key =>
            match skip_space s2 with
            | c' :: s3 =>
              if decide (c' = ":"%byte) then
                match value saved (skip_space s3) with
                | Ok v saved' s4 =>
                  let m' := <[string_of_bytes key := v]> m in
                  match skip_space s4 with
                  | c'' :: s5 =>
                    if decide (c'' = ","%byte) then
                      object value n m' saved' (skip_space s5)
                    else if decide (c'' = "}"%byte) then
                      Ok (Some (go_map m')) saved' s5
                    else SyntaxErr
                  | [] => SyntaxErr
                  end
                | r => r
                end
              else SyntaxErr
            | [] => SyntaxErr
            end
          | None => Panic
          end
        | None => SyntaxErr
        end
      else SyntaxErr
    | [] => SyntaxErr
    end
  end.

(** [valueInterface]: the value at the front of [s].  [levels] is the
    number of values that may still be nested in one another, this value
    included: opening an array or an object when none is left for its
    elements is the scanner's error "exceeded max depth". *)
Fixpoint value (levels : nat) (saved : option error) (s : list byte)
  {struct levels} : result :=
  match levels with
  | O => SyntaxErr
  | S levels =>
    match s with
    | [] => SyntaxErr
    | c :: s1 =>
      if decide (c = "{"%byte) then
        match levels with
        | O => SyntaxErr
        | S _ =>
          match skip_space s1 with
          | c' :: s2 =>
            if decide (c' = "}"%byte) then Ok (Some (go_map ∅)) saved s2
            else object (value levels) (S (length s1)) ∅ saved (c' :: s2)
          | [] => SyntaxErr
          end
        end
      else if decide (c = "["%byte) then
        match levels with
        | O => SyntaxErr
        | S _ =>
          match skip_space s1 with
          | c' :: s2 =>
            if decide (c' = "]"%byte) then Ok (Some (go_slice [])) saved s2
            else array (value levels) (S (length s1)) [] saved (c' :: s2)
          | [] => SyntaxErr
          end
        end
      else if decide (c = quote) then
        match scan_string s1 with
        | Some (raw, rest) =>
          match unquote 0 raw with
          | Some b => Ok (Some (go_string (string_of_bytes b))) saved rest
          | None => Panic
          end
        | None => SyntaxErr
        end
      else if decide (c = "n"%byte) then
        match expect (bytes_of_string "ull") s1 with
        | Some rest => Ok None saved rest
        | None => SyntaxErr
        end
      else if decide (c = "t"%byte) then
        match expect (bytes_of_string "rue") s1 with
        | Some rest => Ok (Some (go_bool true)) saved rest
        | None => SyntaxErr
        end
      else if decide (c = "f"%byte) then
        match expect (bytes_of_string "alse") s1 with
        | Some rest => Ok (Some (go_bool false)) saved rest
        | None => SyntaxErr
        end
      else
        match scan_number s with
        | Some (lit, rest) =>
          let '(n, err) := convertNumber lit in
          Ok n (saveError saved err) rest
        | None => SyntaxErr
        end
    end
  end.

(** [json.Unmarshal(data, &v)] for [v] of type [interface{}]: the new
    contents of [v] and the error returned.  On a syntax error [v] is
    left as it was. *)
Definition Unmarshal (data : list byte) (v : option any)
  : outcome (option any * option error) :=
  match value (S maxNestingDepth) None (skip_space data) with
  | Ok x saved rest =>
    match skip_space rest with
    | [] => Returns (x, saved)
    | _ :: _ => Returns (v, Some json_SyntaxError)
    end
  | SyntaxErr => Returns (v, Some json_SyntaxError)
  | Panic => Panics
  | NoFuel => OutOfFuel
  end.

End json.

(** ** [getValue] *)

Definition getValue (updValue : option gnmi.TypedValue)
  : outcome (option any * option error) :=
  match updValue with
  | None => Panics                    (* [updValue.Value] of a nil pointer *)
  | Some tv =>
    let value : option any := None in
    let jsondata : list byte := [] in
    let '(value, jsondata) :=
      match gnmi.Value tv with
      | Some (gnmi.TypedValue_AsciiVal s) => (Some (go_string s), jsondata)
      | Some (gnmi.TypedValue_BoolVal b) => (Some (go_bool b), jsondata)
      | Some (gnmi.TypedValue_BytesVal b) => (Some (go_bytes b), jsondata)
      | Some (gnmi.TypedValue_DecimalVal d) => (Some (go_Decimal64 d), jsondata)
      | Some (gnmi.TypedValue_FloatVal f) => (Some (go_float32 f), jsondata)
      | Some (gnmi.TypedValue_IntVal i) => (Some (go_int64 i), jsondata)
      | Some (gnmi.TypedValue_StringVal s) => (Some (go_string s), jsondata)
      | Some (gnmi.TypedValue_UintVal u) => (Some (go_uint64 u), jsondata)
      | Some (gnmi.TypedValue_JsonIetfVal b) => (value, b)
      | Some (gnmi.TypedValue_JsonVal b) => (value, b)
      | Some (gnmi.TypedValue_LeaflistVal l) => (Some (go_ScalarArray l), jsondata)
      | Some (gnmi.TypedValue_ProtoBytes b) => (Some (go_bytes b), jsondata)
      | Some (gnmi.TypedValue_AnyVal a) => (Some (go_Any a), jsondata)
      | None => (value, jsondata)
      end in
    match value with
    | None =>
      match json.Unmarshal jsondata value with
      | Returns (value, err) =>
        match err with
        | Some e => Returns (None, Some e)
        | None => Returns (value, None)
        end
      | Panics => Panics
      | OutOfFuel => OutOfFuel
      end
    | Some _ => Returns (value, None)
    end
  end.

(** ** Calls into the outside world *)

(** [tls.Certificate]; the zero value has no chain and no key. *)
Record tls_Certificate : Type := {
  Certificate : list (list byte);
  PrivateKey : option (list byte)
}.

Definition zero_Certificate : tls_Certificate :=
  {| Certificate := []; PrivateKey := None |}.

(** A parsed [x509.Certificate], identified by its DER bytes, and
    [x509.CertPool], the certificates added so far. *)
Definition x509_Certificate : Type := list byte.
Definition x509_CertPool : Type := list x509_Certificate.

(** [tls.Config], the fields [createGrpcConn] sets.  A nil slice of
    certificates is the empty list; [RootCAs] is a pointer. *)
Inductive RenegotiationSupport : Type :=
  | RenegotiateNever
  | RenegotiateOnceAsClient
  | RenegotiateFreelyAsClient.

Record tls_Config : Type := {
  Renegotiation : RenegotiationSupport;
  InsecureSkipVerify : bool;
  Certificates : list tls_Certificate;
  RootCAs : option x509_CertPool
}.

(** [time.Duration], in nanoseconds. *)
Definition Duration : Type := Z.

(** [grpc.DialOption], the ones [createGrpcConn] builds. *)
Inductive DialOption : Type :=
  | WithTimeout (d : Duration)
  | WithBlock
  | WithDefaultCallOptions_MaxCallRecvMsgSize (bytes : Z)
  | WithNoProxy
  | WithInsecure
  | WithTransportCredentials_NewTLS (c : tls_Config).

(** [*grpc.ClientConn], a handle of the connection made. *)
Inductive ClientConn : Type :=
  | conn_handle (id : nat).

(** The calls of [root.go] that read files, write the log or use the
    network, each with the type of what it returns. *)
Inductive call : Type -> Type :=
  | tls_LoadX509KeyPair (certFile keyFile : string)
      : call (tls_Certificate * option error)
  | ioutil_ReadFile (filename : string)
      : call (list byte * option error)
  | log_Printf (format : string) (err : error)
      : call unit
  | grpc_Dial (target : string) (opts : list DialOption)
      : call (option ClientConn * option error).

(** A computation that makes such calls: it returns, or makes a call and
    goes on with the answer. *)
Inductive io (A : Type) : Type :=
  | Ret (a : A)
  | Do {X : Type} (c : call X) (k : X -> io A).
Arguments Ret {A} a.
Arguments Do {A X} c k.

Fixpoint io_bind {A B : Type} (m : io A) (f : A -> io B) : io B :=
  match m with
  | Ret a => f a
  | Do c k => Do c (fun x => io_bind (k x) f)
  end.

Definition perform {X : Type} (c : call X) : io X := Do c Ret.

#[global] Instance io_ret : MRet io := @Ret.
#[global] Instance io_mbind : MBind io := fun A B f m => io_bind m f.

(** One call as it happened: the call and its answer. *)
Inductive event : Type :=
  | Event {X : Type} (c : call X) (answer : X).

(** The outside world: a state and how it answers a call. *)
Record world : Type := {
  world_state : Type;
  answer : forall X : Type, call X -> world_state -> X * world_state
}.

(** Running a computation in a world: the result, the calls made in order
    and the state the world is left in. *)
Fixpoint run {A : Type} (w : world) (m : io A) (st : world_state w)
  : A * list event * world_state w :=
  match m with
  | Ret a => (a, [], st)
  | Do c k =>
    let '(x, st') := answer w _ c st in
    let '(a, evs, st'') := run w (k x) st' in
    (a, Event c x :: evs, st'')
  end.

(** The calls that read certificate material from disk. *)
Definition reads_certificates (e : event) : Prop :=
  match e with
  | Event (tls_LoadX509KeyPair _ _) _ => True
  | Event (ioutil_ReadFile _) _ => True
  | _ => False
  end.

(** ** The connection set-up *)

(** The settings [root.go] reads from the process-wide viper instance,
    by key, with the type their flag is declared with. *)
Record settings : Type := {
  timeout : string;            (* "timeout" *)
  max_msg_size : Z;            (* "max-msg-size" *)
  proxy_from_env : bool;       (* "proxy-from-env" *)
  insecure : bool;             (* "insecure" *)
  skip_verify : bool;          (* "skip-verify" *)
  tls_cert : string;           (* "tls-cert" *)
  tls_key : string;            (* "tls-key" *)
  tls_ca : string              (* "tls-ca" *)
}.

Section Connection.

(** [time.ParseDuration], and the certificates [AppendCertsFromPEM]
    finds in PEM data: the blocks of type CERTIFICATE that parse, in
    order.  Both are pure functions of the standard library. *)
Variable time_ParseDuration : string -> Duration * option error.
Variable pem_certificates : list byte -> list x509_Certificate.

(** The viper settings of the process. *)
Variable viper : settings.

(** [x509.NewCertPool] and the methods [AddCert] and
    [AppendCertsFromPEM] of a pool. *)
Definition NewCertPool : x509_CertPool := [].

Definition AddCert (pool : x509_CertPool) (cert : x509_Certificate)
  : x509_CertPool :=
  if decide (cert ∈ pool) then pool else pool ++ [cert].

Definition AppendCertsFromPEM (pool : x509_CertPool) (pemCerts : list byte)
  : x509_CertPool * bool :=
  let certs := pem_certificates pemCerts in
  (fold_left AddCert certs pool, bool_decide (certs ≠ [])).

Definition loadCerts : io (list tls_Certificate * option error) :=
  let tlsCert := tls_cert viper in
  let tlsKey := tls_key viper in
  let certificate := zero_Certificate in
  if decide (tlsCert ≠ "" ∧ tlsKey ≠ "") then
    '(certificate, err) ← perform (tls_LoadX509KeyPair tlsCert tlsKey);
    match err with
    | Some e => Ret ([], Some e)
    | None => Ret ([certificate], None)
    end
  else Ret ([certificate], None).

Definition loadCACerts : io (option x509_CertPool * option error) :=
  let tlsCa := tls_ca viper in
  let certPool := NewCertPool in
  if decide (tlsCa ≠ "") then
    '(caFile, err) ← perform (ioutil_ReadFile tlsCa);
    match err with
    | Some e => Ret (None, Some e)
    | None =>
      let '(certPool, ok) := AppendCertsFromPEM certPool caFile in
      if negb ok then Ret (None, Some (errorString "failed to append certificate"))
      else Ret (Some certPool, None)
    end
  else Ret (Some certPool, None).

Definition createGrpcConn (address : string)
  : io (option ClientConn * option error) :=
  let opts : list DialOption := [] in
  let '(timeout, err) := time_ParseDuration (timeout viper) in
  match err with
  | Some e => Ret (None, Some e)
  | None =>
    let opts := opts ++ [WithTimeout timeout] in
    let opts := opts ++ [WithBlock] in
    let opts :=
      if decide (max_msg_size viper > 0)%Z
      then opts ++ [WithDefaultCallOptions_MaxCallRecvMsgSize (max_msg_size viper)]
      else opts in
    let opts :=
      if negb (proxy_from_env viper) then opts ++ [WithNoProxy] else opts in
    opts ←
      (if insecure viper then Ret (opts ++ [WithInsecure])
       else
         let tlsConfig :=
           {| Renegotiation := RenegotiateNever;
              InsecureSkipVerify := skip_verify viper;
              Certificates := [];
              RootCAs := None |} in
         '(certificates, err) ← loadCerts;
         _ ← match err with
              | Some e => perform (log_Printf "failed loading certificates: %v" e)
              | None => Ret tt
              end;
         let tlsConfig :=
           {| Renegotiation := Renegotiation tlsConfig;
              InsecureSkipVerify := InsecureSkipVerify tlsConfig;
              Certificates := certificates;
              RootCAs := RootCAs tlsConfig |} in
         '(certPool, err) ← loadCACerts;
         _ ← match err with
              | Some e => perform (log_Printf "failed loading CA certificates: %v" e)
              | None => Ret tt
              end;
         let tlsConfig :=
           {| Renegotiation := Renegotiation tlsConfig;
              InsecureSkipVerify := InsecureSkipVerify tlsConfig;
              Certificates := Certificates tlsConfig;
              RootCAs := certPool |} in
         Ret (opts ++ [WithTransportCredentials_NewTLS tlsConfig]));
    '(conn, err) ← perform (grpc_Dial address opts);
    match err with
    | Some e => Ret (None, Some e)
    | None => Ret (conn, None)
    end
  end.

End Connection.

(** ** The consumers [printer] and [gather] *)

(** The case a [select] over [<-c] and [<-ctx.Done()] took. *)
Inductive selected : Type :=
  | case_recv (m : string)
  | case_Done.

(** One pass through the loop of [printer]: the lines printed so far
    ([fmt.Println] adds one) and whether the loop goes on. *)
Definition printer (sel : selected) (stdout : list string) : list string * bool :=
  match sel with
  | case_recv m => (stdout ++ [m], true)
  | case_Done => (stdout, false)
  end.

(** One pass through the loop of [gather]: the contents of [*ls] and
    whether the loop goes on. *)
Definition gather (sel : selected) (ls : list string) : list string * bool :=
  match sel with
  | case_recv m => (ls ++ [m], true)
  | case_Done => (ls, false)
  end.

(** A consumer goroutine together with the channel [c], the context and
    the producers.  [sent] and [sent_before_Done] are history: the items
    whose send has completed, in order, and those among them that were
    sent before the context was cancelled. *)
Record aggregator : Type := {
  capacity : nat;                  (* cap(c); 0 for an unbuffered channel *)
  buffer : list string;            (* the items waiting in c *)
  cancelled : bool;                (* ctx.Done() is closed *)
  running : bool;                  (* the consumer is still in its loop *)
  sink : list string;              (* lines printed, or *ls *)
  sent : list string;
  sent_before_Done : list string
}.

Definition start (cap : nat) (ls : list string) : aggregator :=
  {| capacity := cap; buffer := []; cancelled := false; running := true;
     sink := ls; sent := []; sent_before_Done := [] |}.

Definition note_sent (m : string) (a : aggregator) : list string :=
  if cancelled a then sent_before_Done a else sent_before_Done a ++ [m].

Section Aggregator.

(** The body of the consumer's loop, [printer] or [gather]. *)
Variable consumer : selected -> list string -> list string * bool.

Definition consume (sel : selected) (a : aggregator) (buf : list string)
  (snt sbd : list string) : aggregator :=
  let '(out, go_on) := consumer sel (sink a) in
  {| capacity := capacity a; buffer := buf; cancelled := cancelled a;
     running := go_on; sink := out; sent := snt; sent_before_Done := sbd |}.

(** The steps of the system, as Go's channels and [select] allow them:
    a [select] takes a case that can proceed, any of them if several
    can. *)
Inductive step : aggregator -> aggregator -> Prop :=
  | step_send (a : aggregator) (m : string) :
      (* a producer's [c <- m] into a free slot of the buffer *)
      length (buffer a) < capacity a ->
      step a {| capacity := capacity a; buffer := buffer a ++ [m];
                cancelled := cancelled a; running := running a;
                sink := sink a; sent := sent a ++ [m];
                sent_before_Done := note_sent m a |}
  | step_handoff (a : aggregator) (m : string) :
      (* a producer's [c <- m] meets the consumer waiting in [<-c] *)
      running a = true -> buffer a = [] ->
      step a (consume (case_recv m) a [] (sent a ++ [m]) (note_sent m a))
  | step_cancel (a : aggregator) :
      (* the context is cancelled *)
      step a {| capacity := capacity a; buffer := buffer a;
                cancelled := true; running := running a;
                sink := sink a; sent := sent a;
                sent_before_Done := sent_before_Done a |}
  | step_recv (a : aggregator) (m : string) (rest : list string) :
      (* the consumer's [case m := <-c] *)
      running a = true -> buffer a = m :: rest ->
      step a (consume (case_recv m) a rest (sent a) (sent_before_Done a))
  | step_Done (a : aggregator) :
      (* the consumer's [case <-ctx.Done()] *)
      running a = true -> cancelled a = true ->
      step a (consume case_Done a (buffer a) (sent a) (sent_before_Done a)).


End Aggregator.

(** ** The log, the configuration file and the prompts *)

(** The values the package variable [f] (an [io.WriteCloser]) can hold:
    the zero [myWriteCloser], [os.Stdout], or the [*os.File] that
    [os.OpenFile] returned, which is nil when the call failed. *)
Inductive WriteCloser : Type :=
  | myWriteCloser_zero
  | os_Stdout
  | os_File (file : option nat).

Inductive open_flag : Type :=
  | O_RDWR
  | O_CREATE
  | O_APPEND.

(** [log.LstdFlags] and [log.Lmicroseconds]. *)
Definition LstdFlags : Z := 3.
Definition Lmicroseconds : Z := 4.

(** The calls of the rest of [root.go] into the operating system, the
    logger, viper and the terminal, each with the type of what it
    returns. *)
Inductive sys_call : Type -> Type :=
  | os_Getenv (key : string) : sys_call string
  | os_MkdirAll (path : string) (perm : Z) : sys_call (option error)
  | os_OpenFile (name : string) (flag : list open_flag) (perm : Z)
      : sys_call (option nat * option error)
  | Close (w : WriteCloser) : sys_call (option error)
  | log_SetFlags (flag : Z) : sys_call unit
  | log_SetOutput (w : WriteCloser) : sys_call unit
  | log_Fatalf_print (format : string) (err : error) : sys_call unit
  | fmt_Printf (format : string) (arg : string) (err : error) : sys_call unit
  | fmt_Println_error (err : error) : sys_call unit
  | fmt_Println : sys_call unit
  | fmt_Print (s : string) : sys_call unit
  | fmt_Scan : sys_call (string * option error)
  | terminal_ReadPassword_Stdin : sys_call (list byte * option error)
  | viper_SetConfigFile (file : string) : sys_call unit
  | viper_AddConfigPath (dir : string) : sys_call unit
  | viper_SetConfigName (name : string) : sys_call unit
  | viper_ReadInConfig : sys_call (option error)
  | homedir_Dir : sys_call (string * option error).

(** A computation that makes such calls. *)
Inductive proc (A : Type) : Type :=
  | Done (a : A)
  | Call {X : Type} (c : sys_call X) (k : X -> proc A).
Arguments Done {A} a.
Arguments Call {A X} c k.

Fixpoint proc_bind {A B : Type} (m : proc A) (f : A -> proc B) : proc B :=
  match m with
  | Done a => f a
  | Call c k => Call c (fun x => proc_bind (k x) f)
  end.

Definition call_sys {X : Type} (c : sys_call X) : proc X := Call c Done.

#[global] Instance proc_ret : MRet proc := @Done.
#[global] Instance proc_mbind : MBind proc := fun A B f m => proc_bind m f.

Inductive sys_event : Type :=
  | SysEvent {X : Type} (c : sys_call X) (answer : X).

(** The system the process runs on: a state and how it answers a call. *)
Record system : Type := {
  system_state : Type;
  respond : forall X : Type, sys_call X -> system_state -> X * system_state
}.

Fixpoint run_proc {A : Type} (w : system) (m : proc A) (st : system_state w)
  : A * list sys_event * system_state w :=
  match m with
  | Done a => (a, [], st)
  | Call c k =>
    let '(x, st') := respond w _ c st in
    let '(a, evs, st'') := run_proc w (k x) st' in
    (a, SysEvent c x :: evs, st'')
  end.

(** How a function of the process ends: it returns, the process exits
    ([os.Exit], also at the end of [log.Fatalf]), or it panics. *)
Inductive ended (A : Type) : Type :=
  | Returned (a : A)
  | Exited (code : Z)
  | Panicked.
Arguments Returned {A} a.
Arguments Exited {A} code.
Arguments Panicked {A}.

(** The package variables [f] and [cfgFile], and the viper settings the
    log set-up reads, of which it writes "log-file". *)
Record process : Type := {
  f : option WriteCloser;
  cfgFile : string;
  nolog : bool;                (* "nolog" *)
  logstdout : bool;            (* "logstdout" *)
  log_file : string            (* "log-file" *)
}.

Definition set_f (w : WriteCloser) (p : process) : process :=
  {| f := Some w; cfgFile := cfgFile p; nolog := nolog p;
     logstdout := logstdout p; log_file := log_file p |}.

(** [viper.Set("log-file", logFile)] *)
Definition set_log_file (logFile : string) (p : process) : process :=
  {| f := f p; cfgFile := cfgFile p; nolog := nolog p;
     logstdout := logstdout p; log_file := logFile |}.

Section Process.

(** [filepath.Dir], a pure function of the standard library. *)
Variable filepath_Dir : string -> string.

(** [rootCmd.PersistentPreRun]: the process state it leaves. *)
Definition PersistentPreRun (p : process) : proc (ended process) :=
  if nolog p then Done (Returned (set_f myWriteCloser_zero p))
  else if logstdout p then
    _ ← call_sys (log_SetFlags (Z.lor LstdFlags Lmicroseconds));
    Done (Returned (set_f os_Stdout p))
  else
    let logFile := log_file p in
    '(logFile, p) ←
      (if decide (logFile = "") then
         home ← call_sys (os_Getenv "HOME");
         let logFile := (home ++ "/.gnmi/gnmiClient.log")%string in
         Done (logFile, set_log_file logFile p)
       else Done (logFile, p));
    err ← call_sys (os_MkdirAll (filepath_Dir logFile) 493);
    match err with
    | Some e =>
      _ ← call_sys (fmt_Printf "could not create log directory '%s':%v\n"
                       (filepath_Dir logFile) e);
      Done (Returned p)
    | None =>
      '(file, err) ← call_sys (os_OpenFile (log_file p)
                                  [O_RDWR; O_CREATE; O_APPEND] 438);
      let p := set_f (os_File file) p in
      match err with
      | Some e =>
        _ ← call_sys (log_Fatalf_print "error opening file: %v" e);
        Done (Exited 1)
      | None =>
        _ ← call_sys (log_SetFlags (Z.lor LstdFlags Lmicroseconds));
        _ ← call_sys (log_SetOutput (os_File file));
        Done (Returned p)
      end
    end.

(** [f.Close()] for the value [f] holds.  Calling it through a nil
    interface panics; [myWriteCloser.Close] returns nil and does nothing;
    [Close] on a nil [*os.File] returns an error without a call. *)
Definition f_Close (p : process) : proc (ended unit) :=
  match f p with
  | None => Done Panicked
  | Some myWriteCloser_zero => Done (Returned tt)
  | Some (os_File None) => Done (Returned tt)
  | Some w => _ ← call_sys (Close w); Done (Returned tt)
  end.

(** [rootCmd.PersistentPostRun] *)
Definition PersistentPostRun (p : process) : proc (ended unit) :=
  if negb (nolog p) && negb (logstdout p) then f_Close p
  else Done (Returned tt).

(** [initConfig] *)
Definition initConfig (p : process) : proc (ended unit) :=
  r ←
    (if decide (cfgFile p ≠ "") then
       _ ← call_sys (viper_SetConfigFile (cfgFile p));
       Done (Returned tt)
     else
       '(home, err) ← call_sys homedir_Dir;
       match err with
       | Some e =>
         _ ← call_sys (fmt_Println_error e);
         Done (Exited 1)
       | None =>
         _ ← call_sys (viper_AddConfigPath home);
         _ ← call_sys (viper_SetConfigName ".gnmiClient");
         Done (Returned tt)
       end);
  match r with
  | Returned _ =>
    _ ← call_sys viper_ReadInConfig;
    Done (Returned tt)
  | Exited code => Done (Exited code)
  | Panicked => Done Panicked
  end.

(** [readUsername] *)
Definition readUsername : proc (string * option error) :=
  _ ← call_sys (fmt_Print "username: ");
  '(username, err) ← call_sys fmt_Scan;
  match err with
  | Some e => Done ("", Some e)
  | None => Done (username, None)
  end.

(** [readPassword] *)
Definition readPassword : proc (string * option error) :=
  _ ← call_sys (fmt_Print "password: ");
  '(pass, err) ← call_sys terminal_ReadPassword_Stdin;
  match err with
  | Some e => Done ("", Some e)
  | None =>
    _ ← call_sys fmt_Println;
    Done (string_of_bytes pass, None)
  end.

End Process.

(** * The specification's reading of the rendering *)

(** A path element rendered as the specification words it: the name,
    then one bracketed pair per entry of the key map, the entries in some
    order. *)
Definition bracketed (kvs : list (string * string)) : string :=
  foldr (fun kv rest => ("[" ++ kv.1 ++ "=" ++ kv.2 ++ "]" ++ rest)%string) "" kvs.

Definition key_map (pe : option gnmi.PathElem) : gmap string string :=
  default ∅ (gnmi.GetKey pe).

Definition rendered_as (pe : option gnmi.PathElem) (r : string) : Prop :=
  exists kvs : list (string * string),
    kvs ≡ₚ map_to_list (key_map pe) /\
    r = (gnmi.GetName pe ++ bracketed kvs)%string.

(** A path formatted as the specification words it: the renderings of the
    elements, in order, joined with a slash; the empty string for no
    path. *)
Definition formatted_as (p : option gnmi.Path) (s : string) : Prop :=
  match p with
  | None => s = ""
  | Some p =>
    exists rs : list string,
      Forall2 rendered_as (gnmi.Elem p) rs /\ s = String.concat "/" rs
  end.

(** * JSON texts and the values they stand for *)

Module grammar.

Definition quote : byte := json.quote.
Definition backslash : byte := json.backslash.

Definition spaces (w : list byte) : Prop :=
  Forall (fun c => c = " "%byte \/ c = x09 \/ c = x0d \/ c = x0a) w.

Definition digit (c : byte) : Prop := (48 <= byte_to_Z c <= 57)%Z.

Definition hex (c : byte) : Prop :=
  (48 <= byte_to_Z c <= 57 \/ 97 <= byte_to_Z c <= 102 \/ 65 <= byte_to_Z c <= 70)%Z.

Definition escape (c : byte) : Prop :=
  c = quote \/ c = backslash \/ c = "/"%byte \/ c = "b"%byte \/ c = "f"%byte \/
  c = "n"%byte \/ c = "r"%byte \/ c = "t"%byte.

(** What may stand between the quotes of a string: bytes other than the
    quote, the backslash and the control characters, and escapes. *)
Inductive chars : list byte -> Prop :=
  | chars_nil : chars []
  | chars_plain (c : byte) (raw : list byte) :
      c ≠ quote -> c ≠ backslash -> (32 <= byte_to_Z c)%Z ->
      chars raw -> chars (c :: raw)
  | chars_escape (e : byte) (raw : list byte) :
      escape e -> chars raw -> chars (backslash :: e :: raw)
  | chars_u (h1 h2 h3 h4 : byte) (raw : list byte) :
      hex h1 -> hex h2 -> hex h3 -> hex h4 ->
      chars raw -> chars (backslash :: "u"%byte :: h1 :: h2 :: h3 :: h4 :: raw).

(** A number: an optional minus, an integer without a leading zero, an
    optional fraction and an optional exponent. *)
Definition integer (ints : list byte) : Prop :=
  ints = ["0"%byte] \/
  exists d ds, ints = d :: ds /\ digit d /\ d ≠ "0"%byte /\ Forall digit ds.

Definition fraction (frac : list byte) : Prop :=
  frac = [] \/ exists d ds, frac = "."%byte :: d :: ds /\ Forall digit (d :: ds).

Definition exponent (exp : list byte) : Prop :=
  exp = [] \/
  exists e sg d ds,
    exp = e :: sg ++ d :: ds /\ (e = "e"%byte \/ e = "E"%byte) /\
    (sg = [] \/ sg = ["+"%byte] \/ sg = ["-"%byte]) /\ Forall digit (d :: ds).

Inductive number : list byte -> Prop :=
  | number_intro (sign ints frac exp : list byte) :
      sign = [] \/ sign = ["-"%byte] ->
      integer ints -> fraction frac -> exponent exp ->
      number (sign ++ ints ++ frac ++ exp).

(** The map an object stands for: its members stored in order, a later
    member replacing an earlier one of the same key. *)
Definition store (m : gmap string (option any)) (kvs : list (string * option any))
  : gmap string (option any) :=
  fold_left (fun m kv => <[kv.1 := kv.2]> m) kvs m.

(** [value t v d e]: the text [t] is a JSON value and stands for [v], a
    number for the [float64] nearest to it (nil when there is none), a
    string for its unquoted bytes; [d] counts how deep its arrays and
    objects nest, the value itself included, and [e] is the error of the
    first of its numbers that has no [float64].  [elements] and [members]
    are the texts between the brackets of a non-empty array and the
    braces of a non-empty object. *)
Inductive value : list byte -> option any -> nat -> option error -> Prop :=
  | value_null : value (json.bytes_of_string "null") None 1 None
  | value_true : value (json.bytes_of_string "true") (Some (go_bool true)) 1 None
  | value_false : value (json.bytes_of_string "false") (Some (go_bool false)) 1 None
  | value_number (lit : list byte) :
      number lit ->
      value lit (json.convertNumber lit).1 1 (json.convertNumber lit).2
  | value_string (raw b : list byte) :
      chars raw -> json.unquote 0 raw = Some b ->
      value (quote :: raw ++ [quote]) (Some (go_string (string_of_bytes b))) 1 None
  | value_array_empty (w : list byte) :
      spaces w -> value ("["%byte :: w ++ ["]"%byte]) (Some (go_slice [])) 2 None
  | value_array (body : list byte) (vs : list (option any)) (d : nat) (e : option error) :
      elements body vs d e ->
      value ("["%byte :: body ++ ["]"%byte]) (Some (go_slice vs)) (S d) e
  | value_object_empty (w : list byte) :
      spaces w -> value ("{"%byte :: w ++ ["}"%byte]) (Some (go_map ∅)) 2 None
  | value_object (body : list byte) (kvs : list (string * option any)) (d : nat)
      (e : option error) :
      members body kvs d e ->
      value ("{"%byte :: body ++ ["}"%byte]) (Some (go_map (store ∅ kvs))) (S d) e
with elements : list byte -> list (option any) -> nat -> option error -> Prop :=
  | elements_last (w1 t w2 : list byte) (v : option any) (d : nat) (e : option error) :
      spaces w1 -> value t v d e -> spaces w2 ->
      elements (w1 ++ t ++ w2) [v] d e
  | elements_more (w1 t w2 body : list byte) (v : option any) (vs : list (option any))
      (d1 d2 : nat) (e1 e2 : option error) :
      spaces w1 -> value t v d1 e1 -> spaces w2 -> elements body vs d2 e2 ->
      elements (w1 ++ t ++ w2 ++ ","%byte :: body) (v :: vs)
               (d1 `max` d2) (json.saveError e1 e2)
with members : list byte -> list (string * option any) -> nat -> option error -> Prop :=
  | members_last (w1 raw key w2 w3 t w4 : list byte) (v : option any) (d : nat)
      (e : option error) :
      spaces w1 -> chars raw -> json.unquote 0 raw = Some key ->
      spaces w2 -> spaces w3 -> value t v d e -> spaces w4 ->
      members (w1 ++ quote :: raw ++ quote :: w2 ++ ":"%byte :: w3 ++ t ++ w4)
              [(string_of_bytes key, v)] d e
  | members_more (w1 raw key w2 w3 t w4 body : list byte) (v : option any)
      (kvs : list (string * option any)) (d1 d2 : nat) (e1 e2 : option error) :
      spaces w1 -> chars raw -> json.unquote 0 raw = Some key ->
      spaces w2 -> spaces w3 -> value t v d1 e1 -> spaces w4 ->
      members body kvs d2 e2 ->
      members (w1 ++ quote :: raw ++ quote :: w2 ++ ":"%byte :: w3 ++ t ++ w4
                  ++ ","%byte :: body)
              ((string_of_bytes key, v) :: kvs)
              (d1 `max` d2) (json.saveError e1 e2).

(** What holds of the first byte of a text, if it has one. *)
Definition head_is (P : byte -> Prop) (s : list byte) : Prop :=
  match s with
  | [] => True
  | c :: _ => P c
  end.

(** The bytes that can follow a value in a document: white space, a
    comma, a closing bracket or brace. *)
Definition follows (c : byte) : Prop :=
  c = " "%byte \/ c = x09 \/ c = x0d \/ c = x0a \/
  c = ","%byte \/ c = "]"%byte \/ c = "}"%byte.

(** The bytes a value can start with. *)
Definition starts (c : byte) : Prop :=
  c = "{"%byte \/ c = "["%byte \/ c = quote \/ c = "n"%byte \/ c = "t"%byte \/
  c = "f"%byte \/ c = "-"%byte \/ digit c.

(** A JSON document: one value, with white space around it. *)
Definition document (data : list byte) (v : option any) (d : nat)
  (e : option error) : Prop :=
  exists w1 t w2, spaces w1 /\ value t v d e /\ spaces w2 /\ data = w1 ++ t ++ w2.

End grammar.

(** * The consumers, as specified and as they are *)




(** A result that is neither the decoder's panic nor a loop out of
    passes. *)
Definition settled (r : json.result) : Prop :=
  r ≠ json.Panic /\ r ≠ json.NoFuel.

(** * Inputs used in the examples *)

Definition settings_example : settings :=
  {| timeout := "30s"; max_msg_size := 512; proxy_from_env := false;
     insecure := false; skip_verify := false;
     tls_cert := "client.pem"; tls_key := ""; tls_ca := "" |}.

(** Settings with the insecure flag on, and settings whose timeout is
    not a duration. *)
Definition settings_insecure : settings :=
  {| timeout := "30s"; max_msg_size := 512; proxy_from_env := false;
     insecure := true; skip_verify := false;
     tls_cert := "client.pem"; tls_key := "client.key"; tls_ca := "ca.pem" |}.

Definition settings_bad_timeout : settings :=
  {| timeout := "soon"; max_msg_size := 512; proxy_from_env := false;
     insecure := false; skip_verify := false;
     tls_cert := ""; tls_key := ""; tls_ca := "ca.pem" |}.

(** A stand-in for [time.ParseDuration] that knows the default of the
    timeout flag and rejects every other string. *)
Definition ParseDuration_default (s : string) : Duration * option error :=
  if decide (s = "30s") then (30000000000%Z, None)
  else (0%Z, Some (lib_error "time" "invalid duration")).

(** A stand-in for the PEM parser that takes non-empty data for one
    certificate. *)
Definition pem_one (data : list byte) : list x509_Certificate :=
  match data with
  | [] => []
  | _ :: _ => [data]
  end.

(** A world in which every file holds the same three bytes and no target
    answers the dial. *)
Definition answer_files (X : Type) (c : call X) (st : unit) : X * unit :=
  match c in call X return X * unit with
  | tls_LoadX509KeyPair _ _ =>
      ((zero_Certificate, Some (lib_error "tls" "failed to find any PEM data")), tt)
  | ioutil_ReadFile _ => ((["c"%byte; "e"%byte; "r"%byte], None), tt)
  | log_Printf _ _ => (tt, tt)
  | grpc_Dial _ _ => ((None, Some (lib_error "context" "deadline exceeded")), tt)
  end.

Definition world_files : world :=
  {| world_state := unit; answer := answer_files |}.

(** * Further definitions used in the properties *)

(** The one rendering of a path element that has at most one key. *)
Definition rendering (pe : option gnmi.PathElem) : string :=
  (gnmi.GetName pe ++ bracketed (map_to_list (key_map pe)))%string.

(** A path element with a name and no keys. *)
Definition named (name : string) : option gnmi.PathElem :=
  Some {| gnmi.Name := name; gnmi.Key := None |}.

(** A path of one element with two keys. *)
Definition two_keys : gnmi.Path :=
  {| gnmi.Elem :=
       [Some {| gnmi.Name := "b";
                gnmi.Key := Some {[ "k" := "v"; "a" := "1" ]} |}] |}.


(** A value of the JSON variant, and one of the JSON-IETF variant. *)
Definition JsonVal (payload : list byte) : option gnmi.TypedValue :=
  Some (gnmi.Build_TypedValue (Some (gnmi.TypedValue_JsonVal payload))).

Definition JsonIetfVal (payload : list byte) : option gnmi.TypedValue :=
  Some (gnmi.Build_TypedValue (Some (gnmi.TypedValue_JsonIetfVal payload))).

(** A consumer with one item waiting in a channel of one slot, and the
    state after [gather] has taken an item handed to it on an unbuffered
    channel, [*ls] having held one item before. *)
Definition one_waiting : aggregator :=
  {| capacity := 1; buffer := ["a"]; cancelled := false; running := true;
     sink := ["x"]; sent := ["a"]; sent_before_Done := ["a"] |}.

Definition one_gathered : aggregator :=
  {| capacity := 0; buffer := []; cancelled := false; running := true;
     sink := ["x"; "a"]; sent := ["a"]; sent_before_Done := ["a"] |}.

(** The dial options that do not depend on the transport security: the
    timeout, blocking, the receive limit when it is positive and the proxy
    bypass unless the proxy of the environment is asked for. *)
Definition base_options (v : settings) (d : Duration) : list DialOption :=
  [WithTimeout d; WithBlock]
  ++ (if decide (max_msg_size v > 0)%Z
      then [WithDefaultCallOptions_MaxCallRecvMsgSize (max_msg_size v)] else [])
  ++ (if proxy_from_env v then [] else [WithNoProxy]).

(** The events that are a dial, and the ones that are a line logged with
    the format [format]. *)
Definition dials (e : event) : bool :=
  match e with
  | Event (grpc_Dial _ _) _ => true
  | _ => false
  end.


(** Settings for a secured connection with no certificate, key or CA
    configured, and settings that name files. *)
Definition settings_tls_default : settings :=
  {| timeout := "30s"; max_msg_size := 512; proxy_from_env := false;
     insecure := false; skip_verify := false;
     tls_cert := ""; tls_key := ""; tls_ca := "" |}.

Definition settings_tls_files : settings :=
  {| timeout := "30s"; max_msg_size := 0; proxy_from_env := true;
     insecure := false; skip_verify := true;
     tls_cert := "client.pem"; tls_key := "client.key"; tls_ca := "ca.pem" |}.

(** ** Events of the log set-up *)

(** The events in which [os.MkdirAll] or [os.OpenFile] answered an error,
    the ones that hand the logger its output, and the ones that ask for
    the HOME variable. *)
Definition mkdir_failed (e : sys_event) : bool :=
  match e with
  | SysEvent c x =>
    match c in sys_call X return X -> bool with
    | os_MkdirAll _ _ => fun err => match err with Some _ => true | None => false end
    | _ => fun _ => false
    end x
  end.



Definition asks_home (e : sys_event) : bool :=
  match e with
  | SysEvent (os_Getenv _) _ => true
  | _ => false
  end.

(** The file an event opened, and the writer an event closed. *)
Definition opened_file (e : sys_event) : option WriteCloser :=
  match e with
  | SysEvent c x =>
    match c in sys_call X return X -> option WriteCloser with
    | os_OpenFile _ _ _ => fun r =>
      match r.1 with
      | Some fd => Some (os_File (Some fd))
      | None => None
      end
    | _ => fun _ => None
    end x
  end.

Definition closed_file (e : sys_event) : option WriteCloser :=
  match e with
  | SysEvent (Close w) _ => Some w
  | _ => None
  end.

(** An event of the log set-up that concerns the log file [path]: the
    directory made is the one of [path], with mode 0755, and the file
    opened is [path], for appending, created with mode 0666 if need be. *)
Definition on_path (filepath_Dir : string -> string) (path : string)
  (e : sys_event) : Prop :=
  match e with
  | SysEvent (os_Getenv key) _ => key = "HOME"
  | SysEvent (os_MkdirAll dir perm) _ => dir = filepath_Dir path /\ perm = 493%Z
  | SysEvent (os_OpenFile name flag perm) _ =>
    name = path /\ flag = [O_RDWR; O_CREATE; O_APPEND] /\ perm = 438%Z
  | _ => True
  end.

(** The calls of [initConfig] into viper. *)
Definition calls_viper (e : sys_event) : bool :=
  match e with
  | SysEvent (viper_SetConfigFile _) _ => true
  | SysEvent (viper_AddConfigPath _) _ => true
  | SysEvent (viper_SetConfigName _) _ => true
  | SysEvent viper_ReadInConfig _ => true
  | _ => false
  end.

(** ** A system and processes for the examples *)

(** A stand-in for [filepath.Dir] on clean paths: what stands before the
    last slash. *)
Fixpoint Dir_scan (path : string) : option string :=
  match path with
  | EmptyString => None
  | String c rest =>
    match Dir_scan rest with
    | Some d => Some (String c d)
    | None => if Ascii.eqb c "/" then Some EmptyString else None
    end
  end.

Definition Dir_plain (path : string) : string := default "." (Dir_scan path).

(** A system on which every call succeeds, except that no configuration
    file is found. *)
Definition respond_plain (X : Type) (c : sys_call X) (st : unit) : X * unit :=
  match c in sys_call X return X * unit with
  | os_Getenv _ => ("/home/u", tt)
  | os_MkdirAll _ _ => (None, tt)
  | os_OpenFile _ _ _ => ((Some 3, None), tt)
  | Close _ => (None, tt)
  | log_SetFlags _ => (tt, tt)
  | log_SetOutput _ => (tt, tt)
  | log_Fatalf_print _ _ => (tt, tt)
  | fmt_Printf _ _ _ => (tt, tt)
  | fmt_Println_error _ => (tt, tt)
  | fmt_Println => (tt, tt)
  | fmt_Print _ => (tt, tt)
  | fmt_Scan => (("admin", None), tt)
  | terminal_ReadPassword_Stdin => ((["p"%byte; "w"%byte], None), tt)
  | viper_SetConfigFile _ => (tt, tt)
  | viper_AddConfigPath _ => (tt, tt)
  | viper_SetConfigName _ => (tt, tt)
  | viper_ReadInConfig => (Some (lib_error "viper" "config file not found"), tt)
  | homedir_Dir => (("/home/u", None), tt)
  end.

Definition system_plain : system :=
  {| system_state := unit; respond := respond_plain |}.

(** The process as it starts with no flag given, and with [--nolog]. *)
Definition process_start : process :=
  {| f := None; cfgFile := ""; nolog := false; logstdout := false;
     log_file := "" |}.

Definition process_nolog : process :=
  {| f := None; cfgFile := ""; nolog := true; logstdout := true;
     log_file := "" |}.

(** * Properties *)

(** Texts are compared with their concatenations nested to the right. *)
Ltac flatten_text :=
  repeat (rewrite <- app_assoc || rewrite <- app_comm_cons); try reflexivity.


(** ** Strings *)

Lemma string_app_assoc (a b c : string) :
  ((a ++ b) ++ c = a ++ (b ++ c))%string.
Proof.
  induction a as [|x a IH]; [reflexivity|].
  change (String x ((a ++ b) ++ c) = String x (a ++ (b ++ c)))%string.
  now rewrite IH.
Qed.

Lemma string_app_nil_r (a : string) : (a ++ "" = a)%string.
Proof.
  induction a as [|x a IH]; [reflexivity|].
  change (String x (a ++ "") = String x a)%string.
  now rewrite IH.
Qed.

Lemma strings_Join_concat (elems : list string) (sep : string) :
  strings_Join elems sep = String.concat sep elems.
Proof.
  induction elems as [|e [|e' rest] IH]; simpl in *; try reflexivity.
  now rewrite IH.
Qed.

Lemma append_keys_bracketed (kvs : list (string * string)) (elem : string) :
  append_keys elem kvs = (elem ++ bracketed kvs)%string.
Proof.
  unfold append_keys. revert elem.
  induction kvs as [|[k v] kvs IH]; intros elem; simpl.
  - now rewrite string_app_nil_r.
  - rewrite IH. unfold Sprintf_key. simpl.
    now rewrite !string_app_assoc.
Qed.

(** ** The path formatter *)

Lemma path_elem_strings_rendered (pe : option gnmi.PathElem) (r : string) :
  r ∈ path_elem_strings pe <-> rendered_as pe r.
Proof.
  unfold path_elem_strings, rendered_as, key_map.
  assert (Hname : (if decide (gnmi.GetName pe ≠ "")
                   then ("" ++ gnmi.GetName pe)%string else "") = gnmi.GetName pe).
  { case_decide as Hn; [reflexivity | now rewrite Hn]. }
  rewrite Hname. clear Hname.
  destruct (gnmi.GetKey pe) as [m|]; simpl.
  - rewrite list_elem_of_bind. split.
    + intros (kvs & Hr & Hk). apply list_elem_of_singleton in Hr.
      apply permutations_Permutation in Hk.
      exists kvs. split; [now symmetry|]. now rewrite Hr, append_keys_bracketed.
    + intros (kvs & Hk & ->). exists kvs. split.
      * apply list_elem_of_singleton. now rewrite append_keys_bracketed.
      * apply permutations_Permutation. now symmetry.
  - rewrite map_to_list_empty, list_elem_of_singleton. split.
    + intros ->. exists []. split; [reflexivity|]. simpl. now rewrite string_app_nil_r.
    + intros (kvs & Hk & ->). apply Permutation_nil_r in Hk. subst kvs.
      simpl. now rewrite string_app_nil_r.
Qed.

Lemma path_elem_strings_nonempty (pe : option gnmi.PathElem) :
  path_elem_strings pe ≠ [].
Proof.
  intros He.
  assert (H : rendered_as pe (gnmi.GetName pe ++ bracketed (map_to_list (key_map pe)))%string).
  { exists (map_to_list (key_map pe)). split; reflexivity. }
  apply path_elem_strings_rendered in H. rewrite He in H.
  now apply not_elem_of_nil in H.
Qed.

Lemma path_loop_elem (pes : list (option gnmi.PathElem)) (acc : list string) (s : string) :
  s ∈ path_loop pes acc <->
  exists rs, Forall2 rendered_as pes rs /\ s = strings_Join (acc ++ rs) "/".
Proof.
  revert acc. induction pes as [|pe pes IH]; intros acc; simpl.
  - rewrite list_elem_of_singleton. split.
    + intros ->. exists []. split; [constructor|]. now rewrite app_nil_r.
    + intros (rs & Hrs & ->). inversion Hrs. now rewrite app_nil_r.
  - rewrite list_elem_of_bind. split.
    + intros (r & Hs & Hr). apply IH in Hs as (rs & Hrs & ->).
      exists (r :: rs). split.
      * constructor; [now apply path_elem_strings_rendered | assumption].
      * now rewrite <- app_assoc.
    + intros (rs & Hrs & ->). inversion Hrs as [|? r ? rs' Hr Hrs']; subst.
      exists r. split; [|now apply path_elem_strings_rendered].
      apply IH. exists rs'. split; [assumption|]. now rewrite <- app_assoc.
Qed.

Lemma path_loop_nonempty (pes : list (option gnmi.PathElem)) (acc : list string) :
  path_loop pes acc ≠ [].
Proof.
  revert acc. induction pes as [|pe pes IH]; intros acc; simpl; [discriminate|].
  destruct (path_elem_strings pe) as [|r rs] eqn:Hpe.
  - now apply path_elem_strings_nonempty in Hpe.
  - simpl. specialize (IH (acc ++ [r])).
    destruct (path_loop pes (acc ++ [r])); [contradiction | discriminate].
Qed.

(** C2. For every path (nil included) a call of [gnmiPathToXPath] returns
    a string, and the strings it can return are exactly the renderings the
    specification describes: each element in order as its name followed by
    one [[key=value]] per entry of its key map, in some order of the
    entries, the elements joined with a slash, and the empty string for a
    nil path.  The three examples of the specification have one possible
    result each. *)
Theorem gnmiPathToXPath_format :
  (forall (p : option gnmi.Path) (s : string),
      s ∈ gnmiPathToXPath p <-> formatted_as p s) /\
  (forall p : option gnmi.Path, gnmiPathToXPath p ≠ []) /\
  gnmiPathToXPath
    (Some {| gnmi.Elem :=
               [Some {| gnmi.Name := "a"; gnmi.Key := Some ∅ |};
                Some {| gnmi.Name := "b"; gnmi.Key := Some {[ "k" := "v" ]} |}] |})
    = ["a/b[k=v]"] /\
  gnmiPathToXPath None = [""] /\
  gnmiPathToXPath
    (Some {| gnmi.Elem := [Some {| gnmi.Name := ""; gnmi.Key := Some ∅ |}] |})
    = [""].
Proof.
  split; [|split; [|split; [|split]]].
  - intros [p|] s; simpl.
    + rewrite path_loop_elem. simpl.
      split; intros (rs & Hrs & ->); exists rs; (split; [assumption|]);
        [apply strings_Join_concat | symmetry; apply strings_Join_concat].
    + apply list_elem_of_singleton.
  - intros [p|]; simpl; [apply path_loop_nonempty | discriminate].
  - vm_compute. reflexivity.
  - reflexivity.
  - vm_compute. reflexivity.
Qed.

(** ** The value decoder: variants that pass through *)

(** C3. For a value whose variant is one of ascii, bool, bytes, decimal,
    float, int, string, uint, leaflist, protobytes and any, [getValue]
    returns the payload of the variant as it is, with a nil error; an
    int variant holding 42 gives the integer 42. *)
Theorem getValue_passes_payload :
  (forall s, getValue (Some (gnmi.Build_TypedValue (Some (gnmi.TypedValue_AsciiVal s))))
             = Returns (Some (go_string s), None)) /\
  (forall b, getValue (Some (gnmi.Build_TypedValue (Some (gnmi.TypedValue_BoolVal b))))
             = Returns (Some (go_bool b), None)) /\
  (forall b, getValue (Some (gnmi.Build_TypedValue (Some (gnmi.TypedValue_BytesVal b))))
             = Returns (Some (go_bytes b), None)) /\
  (forall d, getValue (Some (gnmi.Build_TypedValue (Some (gnmi.TypedValue_DecimalVal d))))
             = Returns (Some (go_Decimal64 d), None)) /\
  (forall f, getValue (Some (gnmi.Build_TypedValue (Some (gnmi.TypedValue_FloatVal f))))
             = Returns (Some (go_float32 f), None)) /\
  (forall i, getValue (Some (gnmi.Build_TypedValue (Some (gnmi.TypedValue_IntVal i))))
             = Returns (Some (go_int64 i), None)) /\
  (forall s, getValue (Some (gnmi.Build_TypedValue (Some (gnmi.TypedValue_StringVal s))))
             = Returns (Some (go_string s), None)) /\
  (forall u, getValue (Some (gnmi.Build_TypedValue (Some (gnmi.TypedValue_UintVal u))))
             = Returns (Some (go_uint64 u), None)) /\
  (forall l, getValue (Some (gnmi.Build_TypedValue (Some (gnmi.TypedValue_LeaflistVal l))))
             = Returns (Some (go_ScalarArray l), None)) /\
  (forall b, getValue (Some (gnmi.Build_TypedValue (Some (gnmi.TypedValue_ProtoBytes b))))
             = Returns (Some (go_bytes b), None)) /\
  (forall a, getValue (Some (gnmi.Build_TypedValue (Some (gnmi.TypedValue_AnyVal a))))
             = Returns (Some (go_Any a), None)) /\
  getValue (Some (gnmi.Build_TypedValue (Some (gnmi.TypedValue_IntVal 42))))
    = Returns (Some (go_int64 42), None).
Proof. repeat split. Qed.

(** ** The value decoder: no variant *)

(** C1, as the code has it. For a value in which no variant is set,
    [getValue] hands the empty payload to the JSON decoder and returns the
    nil value together with the decoder's syntax error for an empty
    input. *)
Theorem getValue_no_variant (tv : gnmi.TypedValue) :
  gnmi.Value tv = None ->
  getValue (Some tv) = Returns (None, Some json_SyntaxError).
Proof. destruct tv as [v]. simpl. intros ->. reflexivity. Qed.

Lemma getValue_no_variant_witness :
  getValue (Some (gnmi.Build_TypedValue None)) = Returns (None, Some json_SyntaxError).
Proof. apply (getValue_no_variant (gnmi.Build_TypedValue None)). reflexivity. Defined.

(** C1 as stated fails: the value with no variant does not decode to nil
    with a nil error. *)
Lemma no_variant_not_nil_nil :
  gnmi.Value (gnmi.Build_TypedValue None) = None /\
  getValue (Some (gnmi.Build_TypedValue None)) ≠ Returns (None, None).
Proof. split; [reflexivity | discriminate]. Qed.

(** ** The value decoder: the JSON literal null *)

(** C10. For a JSON or JSON-IETF variant whose payload is the four bytes
    [null], [getValue] returns the nil value and a nil error. *)
Theorem getValue_null_literal :
  getValue (Some (gnmi.Build_TypedValue
                    (Some (gnmi.TypedValue_JsonVal (json.bytes_of_string "null")))))
    = Returns (None, None) /\
  getValue (Some (gnmi.Build_TypedValue
                    (Some (gnmi.TypedValue_JsonIetfVal (json.bytes_of_string "null")))))
    = Returns (None, None).
Proof. split; vm_compute; reflexivity. Qed.

(** ** The certificate loaders *)

(** C9. When exactly one of the settings tls-cert and tls-key is empty,
    [loadCerts] makes no call at all and returns the one zero certificate
    with a nil error, the same computation as when both are empty. *)
Theorem loadCerts_mismatched (v : settings) :
  (tls_cert v = "" /\ tls_key v ≠ "") \/ (tls_cert v ≠ "" /\ tls_key v = "") ->
  loadCerts v = Ret ([zero_Certificate], None) /\
  forall v0 : settings,
    tls_cert v0 = "" -> tls_key v0 = "" -> loadCerts v0 = loadCerts v.
Proof.
  intros H.
  assert (Hv : loadCerts v = Ret ([zero_Certificate], None)).
  { unfold loadCerts. case_decide as Hd; [|reflexivity].
    destruct Hd as [Hc Hk]. destruct H as [[H _]|[_ H]]; contradiction. }
  split; [exact Hv|].
  intros v0 Hc Hk. rewrite Hv. unfold loadCerts.
  case_decide as Hd; [|reflexivity]. destruct Hd as [Hc' _]. contradiction.
Qed.

Lemma loadCerts_mismatched_witness :
  loadCerts settings_example = Ret ([zero_Certificate], None) /\
  forall v0 : settings,
    tls_cert v0 = "" -> tls_key v0 = "" -> loadCerts v0 = loadCerts settings_example.
Proof.
  apply (loadCerts_mismatched settings_example).
  right. split; [discriminate | reflexivity].
Defined.

Lemma AddCert_fold_elem (pem : list x509_Certificate) (pool : x509_CertPool)
  (c : x509_Certificate) :
  c ∈ fold_left AddCert pem pool <-> c ∈ pool \/ c ∈ pem.
Proof.
  revert pool. induction pem as [|x pem IH]; intros pool; simpl.
  - rewrite elem_of_nil. tauto.
  - rewrite IH, elem_of_cons. unfold AddCert.
    case_decide as Hx.
    + split; [tauto|]. intros [H|[->|H]]; tauto.
    + rewrite elem_of_app, list_elem_of_singleton. tauto.
Qed.

(** C7. [loadCACerts] with an empty tls-ca setting makes no call and
    returns an empty pool and a nil error.  With a path it reads that file
    and nothing else; it returns an error exactly when the read fails or
    the data holds no certificate, and otherwise a nil error and a pool
    that holds exactly the certificates of the data. *)
Theorem loadCACerts_pool (pem_certificates : list byte -> list x509_Certificate)
  (v : settings) (w : world) (st : world_state w) :
  (tls_ca v = "" -> loadCACerts pem_certificates v = Ret (Some [], None)) /\
  (tls_ca v ≠ "" ->
   let '((caFile, read_err), st') := answer w _ (ioutil_ReadFile (tls_ca v)) st in
   exists (pool : option x509_CertPool) (err : option error),
     run w (loadCACerts pem_certificates v) st
       = ((pool, err), [Event (ioutil_ReadFile (tls_ca v)) (caFile, read_err)], st') /\
     (is_Some err <-> is_Some read_err \/ pem_certificates caFile = []) /\
     (is_Some err -> pool = None) /\
     (err = None ->
      exists p, pool = Some p /\ forall c, c ∈ p <-> c ∈ pem_certificates caFile)).
Proof.
  unfold loadCACerts. split; intros Hca.
  - case_decide; [contradiction | reflexivity].
  - case_decide; [|contradiction]. simpl.
    destruct (answer w _ (ioutil_ReadFile (tls_ca v)) st) as [[caFile read_err] st'] eqn:Hans.
    unfold mbind, io_mbind, perform. simpl.
    destruct read_err as [e|]; simpl.
    + exists None, (Some e). repeat split; eauto. discriminate.
    + unfold AppendCertsFromPEM. case_bool_decide as Hp; simpl.
      * eexists _, None. repeat split.
        -- intros [? ?]; discriminate.
        -- intros [[? ?]|?]; [discriminate | contradiction].
        -- intros [? ?]; discriminate.
        -- intros _. eexists. split; [reflexivity|].
           intros c. rewrite AddCert_fold_elem. unfold NewCertPool.
           rewrite elem_of_nil. tauto.
      * exists None, (Some (errorString "failed to append certificate")).
        repeat split; eauto. discriminate.
Qed.

Lemma loadCACerts_pool_witness :
  exists (pool : option x509_CertPool) (err : option error),
    run world_files (loadCACerts pem_one settings_bad_timeout) tt
      = ((pool, err),
         [Event (ioutil_ReadFile "ca.pem") (["c"%byte; "e"%byte; "r"%byte], None)], tt) /\
    (is_Some err <-> is_Some (@None error) \/ pem_one ["c"%byte; "e"%byte; "r"%byte] = []) /\
    (is_Some err -> pool = None) /\
    (err = None ->
     exists p, pool = Some p /\
               forall c, c ∈ p <-> c ∈ pem_one ["c"%byte; "e"%byte; "r"%byte]).
Proof.
  apply (loadCACerts_pool pem_one settings_bad_timeout world_files tt).
  discriminate.
Defined.

(** ** The connection factory *)

(** C5. When [time.ParseDuration] rejects the timeout setting,
    [createGrpcConn] returns that error and a nil connection without
    making any call: in every world its run leaves no event (no
    certificate is loaded, no file read, nothing dialled) and the world as
    it was. *)
Theorem createGrpcConn_bad_timeout
  (time_ParseDuration : string -> Duration * option error)
  (pem_certificates : list byte -> list x509_Certificate)
  (v : settings) (address : string) (d : Duration) (e : error) :
  time_ParseDuration (timeout v) = (d, Some e) ->
  createGrpcConn time_ParseDuration pem_certificates v address
    = Ret (None, Some e) /\
  forall (w : world) (st : world_state w),
    run w (createGrpcConn time_ParseDuration pem_certificates v address) st
      = ((None, Some e), [], st).
Proof.
  intros Hparse.
  assert (H : createGrpcConn time_ParseDuration pem_certificates v address
              = Ret (None, Some e)).
  { unfold createGrpcConn. rewrite Hparse. reflexivity. }
  split; [exact H|]. intros w st. rewrite H. reflexivity.
Qed.

Lemma createGrpcConn_bad_timeout_witness :
  createGrpcConn ParseDuration_default pem_one settings_bad_timeout "10.0.0.1:57400"
    = Ret (None, Some (lib_error "time" "invalid duration")) /\
  forall (w : world) (st : world_state w),
    run w (createGrpcConn ParseDuration_default pem_one settings_bad_timeout
             "10.0.0.1:57400") st
      = ((None, Some (lib_error "time" "invalid duration")), [], st).
Proof.
  apply (createGrpcConn_bad_timeout ParseDuration_default pem_one
           settings_bad_timeout "10.0.0.1:57400" 0%Z).
  reflexivity.
Defined.

(** C6. With the insecure setting on, no run of [createGrpcConn] loads a
    key pair or reads a file, whatever the address, the other settings and
    the world: the only call it can make is the dial, with the option
    [WithInsecure] and no transport credentials. *)
Theorem createGrpcConn_insecure_reads_nothing
  (time_ParseDuration : string -> Duration * option error)
  (pem_certificates : list byte -> list x509_Certificate)
  (v : settings) (address : string) (w : world) (st : world_state w) :
  insecure v = true ->
  let evs := (run w (createGrpcConn time_ParseDuration pem_certificates v address) st).1.2 in
  Forall (fun ev => ¬ reads_certificates ev) evs /\
  (evs = [] \/
   exists opts answer,
     evs = [Event (grpc_Dial address opts) answer] /\
     WithInsecure ∈ opts /\
     forall c, WithTransportCredentials_NewTLS c ∉ opts).
Proof.
  intros Hins evs. subst evs. unfold createGrpcConn.
  destruct (time_ParseDuration (timeout v)) as [d [e|]].
  - simpl. split; [constructor | now left].
  - rewrite Hins. unfold mbind, io_mbind, perform. simpl.
    match goal with
    | |- context [answer w _ (grpc_Dial address ?o) st] =>
      set (opts := o);
      destruct (answer w _ (grpc_Dial address opts) st) as [[conn err] st'] eqn:Hans
    end.
    assert (Hevs : (let '(a, evs, st'') :=
                      run w match err with
                            | Some e => Ret (None, Some e)
                            | None => Ret (conn, None)
                            end st' in
                    (a, Event (grpc_Dial address opts) (conn, err) :: evs, st'')).1.2
                   = [Event (grpc_Dial address opts) (conn, err)]).
    { destruct err; reflexivity. }
    rewrite Hevs. split.
    + repeat constructor. simpl. tauto.
    + right. exists opts, (conn, err). split; [reflexivity|]. subst opts.
      split.
      * rewrite elem_of_app, list_elem_of_singleton. now right.
      * intros c Hc.
        repeat (case_decide || destruct (negb _) ||
                rewrite ?elem_of_app, ?elem_of_cons, ?elem_of_nil in Hc);
          intuition discriminate.
Qed.

Lemma createGrpcConn_insecure_reads_nothing_witness :
  let evs := (run world_files
                (createGrpcConn ParseDuration_default pem_one settings_insecure
                   "10.0.0.1:57400") tt).1.2 in
  Forall (fun ev => ¬ reads_certificates ev) evs /\
  (evs = [] \/
   exists opts answer,
     evs = [Event (grpc_Dial "10.0.0.1:57400" opts) answer] /\
     WithInsecure ∈ opts /\
     forall c, WithTransportCredentials_NewTLS c ∉ opts).
Proof.
  apply (createGrpcConn_insecure_reads_nothing ParseDuration_default pem_one
           settings_insecure "10.0.0.1:57400" world_files tt).
  reflexivity.
Defined.

(** ** The consumers *)



Section Drain.

Variable consumer : selected -> list string -> list string * bool.
Hypothesis consumer_recv :
  forall m out, consumer (case_recv m) out = (out ++ [m], true).
Hypothesis consumer_Done :
  forall out, consumer case_Done out = (out, false).




End Drain.



(** ** The scanner's tokens *)

#[local] Arguments byte_eq_dec : simpl never.

Lemma skip_space_split (s : list byte) :
  exists w, grammar.spaces w /\ s = w ++ json.skip_space s.
Proof.
  induction s as [|c s IH]; simpl.
  - exists []. split; [constructor | reflexivity].
  - unfold json.isSpace. case_bool_decide as Hc.
    + destruct IH as (w & Hw & Hs). exists (c :: w).
      split; [constructor; assumption | simpl; congruence].
    + exists []. split; [constructor | reflexivity].
Qed.

Lemma skip_space_length (s : list byte) :
  length (json.skip_space s) <= length s.
Proof.
  destruct (skip_space_split s) as (w & _ & Hs).
  rewrite Hs at 2. rewrite length_app. lia.
Qed.

Lemma skip_space_nil_spaces (s : list byte) :
  json.skip_space s = [] -> grammar.spaces s.
Proof.
  intros H. destruct (skip_space_split s) as (w & Hw & Hs).
  rewrite H, app_nil_r in Hs. now subst.
Qed.

Lemma expect_split (lit s rest : list byte) :
  json.expect lit s = Some rest -> s = lit ++ rest.
Proof.
  revert s. induction lit as [|l lit IH]; intros s; simpl.
  - intros [= ->]. reflexivity.
  - destruct s as [|c s]; [discriminate|]. case_decide as Hc; [|discriminate].
    intros Hs. apply IH in Hs. subst. reflexivity.
Qed.

Lemma is_digit_digit (c : byte) : strconv.is_digit c = true <-> grammar.digit c.
Proof. unfold strconv.is_digit, grammar.digit. now rewrite bool_decide_eq_true. Qed.

Lemma span_digits_split (s ds rest : list byte) :
  strconv.span_digits s = (ds, rest) -> s = ds ++ rest /\ Forall grammar.digit ds.
Proof.
  revert ds rest. induction s as [|c s IH]; intros ds rest; simpl.
  - intros [= <- <-]. split; [reflexivity | constructor].
  - destruct (strconv.is_digit c) eqn:Hc.
    + destruct (strconv.span_digits s) as [ds' rest'].
      intros [= <- <-]. destruct (IH ds' rest' eq_refl) as [-> Hds].
      split; [reflexivity|]. constructor; [now apply is_digit_digit | assumption].
    + intros [= <- <-]. split; [reflexivity | constructor].
Qed.

Lemma hex_value_hex (c : byte) : is_Some (json.hex_value c) <-> grammar.hex c.
Proof.
  unfold json.hex_value, grammar.hex.
  repeat case_decide; split; intros Hx; try (eexists; reflexivity); try lia;
    destruct Hx as [? Hx]; discriminate.
Qed.

Lemma simple_escape_escape (e : byte) :
  is_Some (json.simple_escape e) <-> grammar.escape e.
Proof.
  unfold json.simple_escape, grammar.escape, grammar.quote, grammar.backslash.
  repeat case_decide; split; intros Hx; try (eexists; reflexivity); try tauto;
    destruct Hx as [? Hx]; discriminate.
Qed.

Lemma scan_string_split_bounded (n : nat) :
  forall s raw rest : list byte,
    length s <= n ->
    json.scan_string s = Some (raw, rest) ->
    s = raw ++ json.quote :: rest /\ grammar.chars raw.
Proof.
  induction n as [|n IH]; intros s raw rest Hlen;
    (destruct s as [|c s1]; [discriminate|]); simpl in Hlen; [lia|].
  simpl. case_decide as Hq.
  { intros [= <- <-]. subst c. split; [reflexivity | constructor]. }
  case_decide as Hb.
  - subst c. destruct s1 as [|e s2]; [discriminate|]. simpl in Hlen.
    case_decide as Hu.
    + subst e. destruct s2 as [|h1 [|h2 [|h3 [|h4 s3]]]]; try discriminate.
      simpl in Hlen.
      destruct (json.hex_value h1) eqn:H1; [|discriminate].
      destruct (json.hex_value h2) eqn:H2; [|discriminate].
      destruct (json.hex_value h3) eqn:H3; [|discriminate].
      destruct (json.hex_value h4) eqn:H4; [|discriminate].
      destruct (json.scan_string s3) as [[raw' rest']|] eqn:Hs3; [|discriminate].
      intros [= <- <-]. apply IH in Hs3 as [-> Hraw]; [|lia].
      split; [reflexivity|].
      apply grammar.chars_u; try assumption; apply hex_value_hex; eauto.
    + destruct (json.simple_escape e) eqn:He; [|discriminate].
      destruct (json.scan_string s2) as [[raw' rest']|] eqn:Hs2; [|discriminate].
      intros [= <- <-]. apply IH in Hs2 as [-> Hraw]; [|lia].
      split; [reflexivity|].
      apply grammar.chars_escape; [apply simple_escape_escape; eauto | assumption].
  - case_decide as Hctl; [discriminate|].
    destruct (json.scan_string s1) as [[raw' rest']|] eqn:Hs1; [|discriminate].
    intros [= <- <-]. apply IH in Hs1 as [-> Hraw]; [|lia].
    split; [reflexivity|].
    apply grammar.chars_plain; try assumption. lia.
Qed.

Lemma scan_string_split (s raw rest : list byte) :
  json.scan_string s = Some (raw, rest) ->
  s = raw ++ json.quote :: rest /\ grammar.chars raw.
Proof. apply (scan_string_split_bounded (length s)). reflexivity. Qed.

Lemma scan_int_split (s ints rest : list byte) :
  json.scan_int s = Some (ints, rest) -> s = ints ++ rest /\ grammar.integer ints.
Proof.
  destruct s as [|c s1]; [discriminate|]. simpl.
  case_decide as H0.
  - intros [= <- <-]. subst c. split; [reflexivity | now left].
  - destruct (strconv.is_digit c) eqn:Hc; [|discriminate].
    destruct (strconv.span_digits s1) as [ds s2] eqn:Hds.
    intros [= <- <-]. apply span_digits_split in Hds as [-> Hds].
    split; [reflexivity|]. right. exists c, ds.
    split; [reflexivity|]. split; [now apply is_digit_digit|]. split; assumption.
Qed.

Lemma scan_frac_split (s frac rest : list byte) :
  json.scan_frac s = Some (frac, rest) -> s = frac ++ rest /\ grammar.fraction frac.
Proof.
  destruct s as [|d s1]; simpl.
  - intros [= <- <-]. split; [reflexivity | now left].
  - case_decide as Hd.
    + destruct (strconv.span_digits s1) as [[|f fs] s2] eqn:Hfs; [discriminate|].
      intros [= <- <-]. apply span_digits_split in Hfs as [-> Hfs]. subst d.
      split; [reflexivity|]. right. eauto.
    + intros [= <- <-]. split; [reflexivity | now left].
Qed.

Lemma scan_exp_split (s exp rest : list byte) :
  json.scan_exp s = Some (exp, rest) -> s = exp ++ rest /\ grammar.exponent exp.
Proof.
  destruct s as [|e s1]; simpl.
  - intros [= <- <-]. split; [reflexivity | now left].
  - case_decide as He.
    + assert (Hsign : exists sg s2,
                 match s1 with
                 | g :: s1' =>
                   if decide (g = "+"%byte ∨ g = "-"%byte) then ([g], s1') else ([], s1)
                 | [] => ([], [])
                 end = (sg, s2) /\ s1 = sg ++ s2 /\
                 (sg = [] \/ sg = ["+"%byte] \/ sg = ["-"%byte])).
      { destruct s1 as [|g s1']; [exists [], []; auto|].
        case_decide as Hg; [|exists [], (g :: s1'); auto].
        exists [g], s1'. repeat split. destruct Hg as [-> | ->]; auto. }
      destruct Hsign as (sg & s2 & -> & -> & Hsg).
      destruct (strconv.span_digits s2) as [[|d ds] s3] eqn:Hds; [discriminate|].
      intros [= <- <-]. apply span_digits_split in Hds as [-> Hds].
      split; [simpl; now rewrite <- app_assoc|].
      right. exists e, sg, d, ds. auto.
    + intros [= <- <-]. split; [reflexivity | now left].
Qed.

Lemma scan_number_split (s lit rest : list byte) :
  json.scan_number s = Some (lit, rest) -> s = lit ++ rest /\ grammar.number lit.
Proof.
  unfold json.scan_number.
  assert (Hsign : exists sign s1,
             json.scan_minus s = (sign, s1) /\ s = sign ++ s1 /\
             (sign = [] \/ sign = ["-"%byte])).
  { destruct s as [|c s']; [exists [], []; auto|]. simpl.
    case_decide as Hc; [|exists [], (c :: s'); auto].
    subst c. exists ["-"%byte], s'. auto. }
  destruct Hsign as (sign & s1 & -> & -> & Hsign).
  destruct (json.scan_int s1) as [[ints s2]|] eqn:Hint; [|discriminate].
  destruct (json.scan_frac s2) as [[frac s3]|] eqn:Hfrac; [|discriminate].
  destruct (json.scan_exp s3) as [[exp s4]|] eqn:Hexp; [|discriminate].
  intros [= <- <-].
  apply scan_int_split in Hint as [-> Hint].
  apply scan_frac_split in Hfrac as [-> Hfrac].
  apply scan_exp_split in Hexp as [-> Hexp].
  split; [now rewrite <- !app_assoc|].
  now constructor.
Qed.

Lemma number_nonempty (lit : list byte) : grammar.number lit -> lit ≠ [].
Proof.
  intros [sign ints frac exp _ Hint _ _] H.
  apply app_eq_nil in H as [_ H]. apply app_eq_nil in H as [H _].
  destruct Hint as [-> | (d & ds & -> & _)]; discriminate.
Qed.

(** ** The scanner takes the whole token *)

Lemma escape_simple (e : byte) :
  grammar.escape e ->
  e ≠ "u"%byte /\ e ≠ "'"%byte /\ is_Some (json.simple_escape e).
Proof.
  intros He. split; [|split; [|now apply simple_escape_escape]].
  - intros ->. unfold grammar.escape in He. intuition discriminate.
  - intros ->. unfold grammar.escape in He. intuition discriminate.
Qed.

Lemma follows_cases (c : byte) :
  grammar.follows c ->
  json.isSpace c = true \/ c = ","%byte \/ c = "]"%byte \/ c = "}"%byte.
Proof.
  unfold grammar.follows, json.isSpace. rewrite bool_decide_eq_true. tauto.
Qed.

Lemma follows_not_number (c : byte) :
  grammar.follows c ->
  ¬ grammar.digit c /\ c ≠ "."%byte /\ c ≠ "e"%byte /\ c ≠ "E"%byte.
Proof.
  unfold grammar.follows, grammar.digit.
  intros [-> | [-> | [-> | [-> | [-> | [-> | ->]]]]]];
    (split; [vm_compute; intuition discriminate | repeat split; discriminate]).
Qed.

Lemma starts_not_space (c : byte) :
  grammar.starts c ->
  json.isSpace c = false /\ c ≠ "]"%byte /\ c ≠ "}"%byte /\ c ≠ ","%byte /\
  c ≠ ":"%byte.
Proof.
  unfold grammar.starts, grammar.digit, grammar.quote, json.isSpace.
  rewrite bool_decide_eq_false.
  intros H.
  assert (Hne : forall b : byte, ¬ (48 <= byte_to_Z b <= 57)%Z ->
                  b ≠ "{"%byte -> b ≠ "["%byte -> b ≠ json.quote -> b ≠ "n"%byte ->
                  b ≠ "t"%byte -> b ≠ "f"%byte -> b ≠ "-"%byte -> c ≠ b).
  { intros b Hd H1 H2 H3 H4 H5 H6 H7 ->. intuition. }
  assert (Hd : forall b : byte, (if decide (48 <= byte_to_Z b <= 57)%Z
                                 then False else True) ->
                                ¬ (48 <= byte_to_Z b <= 57)%Z).
  { intros b Hb. now case_decide. }
  split; [|repeat split]; try (apply Hne; [apply Hd; exact I | discriminate ..]).
  intros [Hs | [Hs | [Hs | Hs]]]; revert Hs;
    (apply Hne; [apply Hd; exact I | discriminate ..]).
Qed.

Lemma skip_space_app (w s : list byte) :
  grammar.spaces w -> json.skip_space (w ++ s) = json.skip_space s.
Proof.
  induction 1 as [|c w Hc Hw IH]; simpl; [reflexivity|].
  unfold json.isSpace. rewrite bool_decide_eq_true_2 by assumption. exact IH.
Qed.

Lemma skip_space_head (c : byte) (s : list byte) :
  json.isSpace c = false -> json.skip_space (c :: s) = c :: s.
Proof. intros H. simpl. now rewrite H. Qed.

Lemma expect_app (lit rest : list byte) :
  json.expect lit (lit ++ rest) = Some rest.
Proof.
  induction lit as [|l lit IH]; simpl; [reflexivity|].
  case_decide; [exact IH | done].
Qed.

Lemma span_digits_app (ds rest : list byte) :
  Forall grammar.digit ds ->
  grammar.head_is (fun c => ¬ grammar.digit c) rest ->
  strconv.span_digits (ds ++ rest) = (ds, rest).
Proof.
  intros Hds Hrest. induction Hds as [|d ds Hd Hds IH]; simpl.
  - destruct rest as [|c rest]; [reflexivity|]. simpl in *.
    destruct (strconv.is_digit c) eqn:Hc; [|reflexivity].
    apply is_digit_digit in Hc. contradiction.
  - apply is_digit_digit in Hd. now rewrite Hd, IH.
Qed.

#[local] Arguments strconv.span_digits : simpl never.

Lemma scan_string_app (raw rest : list byte) :
  grammar.chars raw ->
  json.scan_string (raw ++ json.quote :: rest) = Some (raw, rest).
Proof.
  induction 1 as [|c raw Hq Hb Hctl Hraw IH | e raw He Hraw IH
                  | h1 h2 h3 h4 raw H1 H2 H3 H4 Hraw IH];
    unfold grammar.quote, grammar.backslash in *; simpl.
  - repeat case_decide; done.
  - repeat case_decide; try done; try lia. now rewrite IH.
  - destruct (escape_simple e He) as (Hu & _ & [b Hb]).
    repeat case_decide; try done. now rewrite Hb, IH.
  - apply hex_value_hex in H1 as [a1 Ha1], H2 as [a2 Ha2], H3 as [a3 Ha3],
        H4 as [a4 Ha4].
    repeat case_decide; try done. now rewrite Ha1, Ha2, Ha3, Ha4, IH.
Qed.

Lemma scan_int_app (ints rest : list byte) :
  grammar.integer ints ->
  grammar.head_is (fun c => ¬ grammar.digit c) rest ->
  json.scan_int (ints ++ rest) = Some (ints, rest).
Proof.
  intros [-> | (d & ds & -> & Hd & H0 & Hds)] Hrest; simpl.
  - repeat case_decide; done.
  - case_decide; [done|]. apply is_digit_digit in Hd. rewrite Hd.
    now rewrite span_digits_app.
Qed.

Lemma scan_frac_app (frac rest : list byte) :
  grammar.fraction frac ->
  grammar.head_is (fun c => ¬ grammar.digit c) rest ->
  (frac = [] -> grammar.head_is (fun c => c ≠ "."%byte) rest) ->
  json.scan_frac (frac ++ rest) = Some (frac, rest).
Proof.
  intros [-> | (d & ds & -> & Hds)] Hrest Hdot; simpl.
  - destruct rest as [|c rest]; [reflexivity|].
    specialize (Hdot eq_refl). simpl in *. case_decide; [done | reflexivity].
  - repeat case_decide; try done.
    change (d :: ds ++ rest) with ((d :: ds) ++ rest).
    now rewrite span_digits_app.
Qed.

Lemma scan_exp_app (exp rest : list byte) :
  grammar.exponent exp ->
  grammar.head_is (fun c => ¬ grammar.digit c) rest ->
  (exp = [] -> grammar.head_is (fun c => c ≠ "e"%byte /\ c ≠ "E"%byte) rest) ->
  json.scan_exp (exp ++ rest) = Some (exp, rest).
Proof.
  intros [-> | (e & sg & d & ds & -> & He & Hsg & Hds)] Hrest Hexp; simpl.
  - destruct rest as [|c rest]; [reflexivity|].
    specialize (Hexp eq_refl). simpl in *.
    case_decide; [tauto | reflexivity].
  - case_decide; [|tauto].
    assert (Hsign :
      match (sg ++ d :: ds) ++ rest with
      | g :: s1' =>
        if decide (g = "+"%byte ∨ g = "-"%byte) then ([g], s1')
        else ([], (sg ++ d :: ds) ++ rest)
      | [] => ([], [])
      end = (sg, (d :: ds) ++ rest)).
    { destruct Hsg as [-> | [-> | ->]]; simpl.
      - case_decide as Hg; [|reflexivity].
        inversion Hds as [|? ? Hd _]; subst. unfold grammar.digit in Hd.
        destruct Hg as [-> | ->]; vm_compute in Hd; destruct Hd; congruence.
      - repeat case_decide; tauto || reflexivity.
      - repeat case_decide; tauto || reflexivity. }
    rewrite Hsign. now rewrite span_digits_app by assumption.
Qed.

Lemma digit_not_minus (c : byte) : grammar.digit c -> c ≠ "-"%byte.
Proof.
  unfold grammar.digit. intros Hd ->. vm_compute in Hd. destruct Hd; congruence.
Qed.

Lemma integer_head (ints : list byte) :
  grammar.integer ints -> exists d ds, ints = d :: ds /\ grammar.digit d.
Proof.
  intros [-> | (d & ds & -> & Hd & _)]; [|eauto].
  exists "0"%byte, []. split; [reflexivity|]. vm_compute. split; discriminate.
Qed.

Lemma scan_number_app (lit rest : list byte) :
  grammar.number lit ->
  grammar.head_is grammar.follows rest ->
  json.scan_number (lit ++ rest) = Some (lit, rest).
Proof.
  intros [sign ints frac exp Hsign Hint Hfrac Hexp] Hrest.
  assert (Hrest' : grammar.head_is (fun c => ¬ grammar.digit c /\ c ≠ "."%byte /\
                                             c ≠ "e"%byte /\ c ≠ "E"%byte) rest).
  { destruct rest; simpl in *; [exact I | now apply follows_not_number]. }
  assert (Hexp_rest : grammar.head_is (fun c => ¬ grammar.digit c /\ c ≠ "."%byte)
                        (exp ++ rest)).
  { destruct Hexp as [-> | (e & sg & d & ds & -> & He & _)]; simpl.
    - destruct rest; simpl in *; tauto.
    - destruct He as [-> | ->]; (split; [vm_compute; intuition discriminate | discriminate]). }
  assert (Hfrac_rest : grammar.head_is (fun c => ¬ grammar.digit c)
                         (frac ++ exp ++ rest)).
  { destruct Hfrac as [-> | (d & ds & -> & _)]; simpl.
    - destruct (exp ++ rest); simpl in *; tauto.
    - vm_compute. intuition discriminate. }
  unfold json.scan_number.
  destruct (integer_head ints Hint) as (d & ds & Hints & Hd).
  assert (Hminus : json.scan_minus ((sign ++ ints ++ frac ++ exp) ++ rest)
                   = (sign, ints ++ frac ++ exp ++ rest)).
  { rewrite <- !app_assoc. destruct Hsign as [-> | ->]; simpl.
    - rewrite Hints. simpl. case_decide as Hm; [|reflexivity].
      now apply digit_not_minus in Hd.
    - repeat case_decide; done. }
  rewrite Hminus.
  rewrite scan_int_app by assumption.
  rewrite scan_frac_app; [| assumption | |].
  - rewrite scan_exp_app; [reflexivity | assumption | |].
    + destruct rest; simpl in *; tauto.
    + intros ->. destruct rest; simpl in *; tauto.
  - destruct (exp ++ rest); simpl in *; tauto.
  - intros _. destruct (exp ++ rest); simpl in *; tauto.
Qed.

Lemma number_head (lit : list byte) :
  grammar.number lit ->
  exists c l, lit = c :: l /\ (c = "-"%byte \/ grammar.digit c).
Proof.
  intros [sign ints frac exp Hsign Hint _ _].
  destruct (integer_head ints Hint) as (d & ds & -> & Hd).
  destruct Hsign as [-> | ->]; simpl; eauto.
Qed.

(** ** Unquoting never fails on what the scanner accepted *)

Lemma unquote_skip (k : nat) (s : list byte) :
  json.unquote k s = json.unquote 0 (drop k s).
Proof.
  revert k. induction s as [|c s IH]; intros [|k]; try reflexivity.
  change (json.unquote k s = json.unquote 0 (drop k s)). apply IH.
Qed.

Lemma hex_value_range (c : byte) (v : Z) :
  json.hex_value c = Some v -> (0 <= v <= 15)%Z.
Proof.
  unfold json.hex_value. repeat case_decide; intros [=]; subst; lia.
Qed.

Lemma getu4_nonneg (s : list byte) :
  (0 <= json.getu4 s)%Z ->
  exists h1 h2 h3 h4 rest,
    s = json.backslash :: "u"%byte :: h1 :: h2 :: h3 :: h4 :: rest.
Proof.
  destruct s as [|c0 [|c1 [|h1 [|h2 [|h3 [|h4 rest]]]]]]; simpl; try lia.
  case_decide as Hc; [|lia]. destruct Hc as [-> ->]. eauto 10.
Qed.

Lemma getu4_hex (h1 h2 h3 h4 : byte) (rest : list byte) :
  grammar.hex h1 -> grammar.hex h2 -> grammar.hex h3 -> grammar.hex h4 ->
  (0 <= json.getu4 (json.backslash :: "u"%byte :: h1 :: h2 :: h3 :: h4 :: rest))%Z.
Proof.
  intros H1 H2 H3 H4. simpl.
  apply hex_value_hex in H1 as [a Ha], H2 as [b Hb], H3 as [c Hc], H4 as [d Hd].
  rewrite Ha, Hb, Hc, Hd.
  apply hex_value_range in Ha, Hb, Hc, Hd.
  first [lia | case_decide as Hx; [lia | exfalso; apply Hx; split; reflexivity]].
Qed.

Lemma first_range (p0 lo hi : Z) (sz : nat) :
  utf8.first p0 = Some (sz, lo, hi) ->
  (128 <= lo)%Z /\ (sz = 2 \/ sz = 3 \/ sz = 4).
Proof.
  unfold utf8.first. repeat case_decide; intros [=]; subst; lia.
Qed.

(** The bytes a multi-byte rune takes after its first are not ASCII. *)
Lemma DecodeRune_high (c : byte) (s : list byte) (rr : Z) (size : nat) :
  utf8.DecodeRune (c :: s) = (rr, size) ->
  exists pre rest,
    s = pre ++ rest /\ length pre = size - 1 /\
    Forall (fun b => (128 <= byte_to_Z b)%Z) pre.
Proof.
  assert (Hone : size = 1 -> exists pre rest : list byte,
               s = pre ++ rest /\ length pre = size - 1 /\
               Forall (fun b => (128 <= byte_to_Z b)%Z) pre).
  { intros ->. exists [], s. repeat split. constructor. }
  unfold utf8.DecodeRune. case_decide as Hascii.
  { intros [= <- <-]. now apply Hone. }
  destruct (utf8.first (byte_to_Z c)) as [[[sz lo] hi]|] eqn:Hfirst;
    [|intros [= <- <-]; now apply Hone].
  apply first_range in Hfirst as [Hlo Hsz].
  unfold utf8.cont.
  destruct Hsz as [-> | [-> | ->]].
  - destruct s as [|b1 s]; simpl; [intros [= <- <-]; now apply Hone|].
    case_bool_decide as H1; intros [= <- <-]; [|now apply Hone].
    exists [b1], s. repeat split. repeat constructor. lia.
  - destruct s as [|b1 [|b2 s]]; simpl; try (intros [= <- <-]; now apply Hone).
    case_bool_decide as H1; simpl; [|intros [= <- <-]; now apply Hone].
    case_bool_decide as H2; intros [= <- <-]; [|now apply Hone].
    exists [b1; b2], s. repeat split. repeat constructor; lia.
  - destruct s as [|b1 [|b2 [|b3 s]]]; simpl; try (intros [= <- <-]; now apply Hone).
    case_bool_decide as H1; simpl; [|intros [= <- <-]; now apply Hone].
    case_bool_decide as H2; simpl; [|intros [= <- <-]; now apply Hone].
    case_bool_decide as H3; intros [= <- <-]; [|now apply Hone].
    exists [b1; b2; b3], s. repeat split. repeat constructor; lia.
Qed.

Lemma chars_drop_high (pre rest : list byte) :
  Forall (fun b => (128 <= byte_to_Z b)%Z) pre ->
  grammar.chars (pre ++ rest) -> grammar.chars rest.
Proof.
  induction 1 as [|b pre Hb Hpre IH]; simpl; [auto|].
  intros H. inversion H as [|c raw _ _ _ Hraw| |]; subst.
  - now apply IH.
  - vm_compute in Hb. now contradiction Hb.
  - vm_compute in Hb. now contradiction Hb.
Qed.

#[local] Arguments utf8.DecodeRune : simpl never.
#[local] Arguments utf8.EncodeRune : simpl never.
#[local] Arguments utf16.DecodeRune : simpl never.
#[local] Arguments utf16.IsSurrogate : simpl never.
#[local] Arguments json.getu4 : simpl never.
#[local] Arguments json.simple_escape : simpl never.

Lemma unquote_chars_bounded (n : nat) :
  forall raw : list byte,
    length raw <= n -> grammar.chars raw -> is_Some (json.unquote 0 raw).
Proof.
  induction n as [|n IH]; intros raw Hlen Hraw.
  { destruct raw; [eauto | simpl in Hlen; lia]. }
  inversion Hraw as [|c raw' Hq Hb Hctl Hraw' | e raw' He Hraw'
                     | h1 h2 h3 h4 raw' H1 H2 H3 H4 Hraw']; subst; simpl in Hlen.
  - eauto.
  - simpl. unfold grammar.quote, grammar.backslash in *.
    case_decide; [contradiction|].
    case_decide as Hx; [destruct Hx; [contradiction | lia]|].
    case_decide.
    + apply fmap_is_Some, IH; [lia | assumption].
    + destruct (utf8.DecodeRune (c :: raw')) as [rr size] eqn:Hdec.
      apply DecodeRune_high in Hdec as (pre & rest & -> & Hlenpre & Hpre).
      apply fmap_is_Some. rewrite unquote_skip, <- Hlenpre, drop_app_length.
      apply IH; [rewrite length_app in Hlen; lia|].
      eapply chars_drop_high; eassumption.
  - destruct (escape_simple e He) as (Hu & Hs & [b Hb]).
    simpl. case_decide; [done|]. case_decide; [done|].
    rewrite Hb. apply fmap_is_Some, IH; [lia | assumption].
  - pose proof (getu4_hex h1 h2 h3 h4 raw' H1 H2 H3 H4) as Hrr.
    unfold grammar.backslash in *.
    set (s := json.backslash :: "u"%byte :: h1 :: h2 :: h3 :: h4 :: raw') in *.
    assert (Hunfold : json.unquote 0 s =
      let rr := json.getu4 s in
      if decide (rr < 0)%Z then None
      else if utf16.IsSurrogate rr then
        let dec := utf16.DecodeRune rr (json.getu4 (drop 6 s)) in
        if decide (dec ≠ utf8.RuneError)
        then (utf8.EncodeRune dec ++.) <$> json.unquote 6 raw'
        else (utf8.EncodeRune utf8.RuneError ++.) <$> json.unquote 0 raw'
      else (utf8.EncodeRune rr ++.) <$> json.unquote 0 raw') by reflexivity.
    rewrite Hunfold. clear Hunfold. cbv zeta.
    case_decide; [lia|].
    destruct (utf16.IsSurrogate (json.getu4 s));
      [|apply fmap_is_Some, IH; [lia | assumption]].
    case_decide as Hdec; [|apply fmap_is_Some, IH; [lia | assumption]].
    apply fmap_is_Some. rewrite unquote_skip.
    assert (Hlow : (0 <= json.getu4 raw')%Z).
    { unfold utf16.DecodeRune in Hdec. change (drop 6 s) with raw' in Hdec.
      destruct (bool_decide (55296 <= json.getu4 s < 56320)%Z); simpl in Hdec;
        [|contradiction].
      case_bool_decide; [lia | contradiction]. }
    apply getu4_nonneg in Hlow as (k1 & k2 & k3 & k4 & raw'' & ->).
    change (is_Some (json.unquote 0 raw'')).
    apply IH; [simpl in Hlen; lia|].
    inversion Hraw' as [|? ? ? Hb' | ? ? He' |]; subst.
    + now contradiction Hb'.
    + apply escape_simple in He' as [Hu _]. now contradiction Hu.
    + assumption.
Qed.

Lemma unquote_chars (raw : list byte) :
  grammar.chars raw -> is_Some (json.unquote 0 raw).
Proof. apply (unquote_chars_bounded (length raw)). reflexivity. Qed.

(** ** The decoder against the grammar *)

Lemma spaces_app (w1 w2 : list byte) :
  grammar.spaces w1 -> grammar.spaces w2 -> grammar.spaces (w1 ++ w2).
Proof. intros H1 H2. apply Forall_app. split; assumption. Qed.

Lemma elements_spaces (w body : list byte) (vs : list (option any)) d e :
  grammar.spaces w -> grammar.elements body vs d e ->
  grammar.elements (w ++ body) vs d e.
Proof.
  intros Hw [w1 t w2 v d' e' H1 Ht H2 | w1 t w2 body' v vs' d1 d2 e1 e2 H1 Ht H2 Hb];
    rewrite app_assoc; constructor; auto using spaces_app.
Qed.

Lemma members_spaces (w body : list byte) (kvs : list (string * option any)) d e :
  grammar.spaces w -> grammar.members body kvs d e ->
  grammar.members (w ++ body) kvs d e.
Proof.
  intros Hw [w1 raw key w2 w3 t w4 v d' e' H1 Hr Hk H2 H3 Ht H4
            | w1 raw key w2 w3 t w4 body' v kvs' d1 d2 e1 e2 H1 Hr Hk H2 H3 Ht H4 Hb];
    rewrite app_assoc; econstructor; eauto using spaces_app.
Qed.

Lemma value_nonempty (t : list byte) (v : option any) d e :
  grammar.value t v d e -> t ≠ [].
Proof.
  intros [ | | | lit Hlit | | | | | ]; try discriminate.
  now apply number_nonempty.
Qed.

Lemma saveError_assoc (e1 e2 e3 : option error) :
  json.saveError (json.saveError e1 e2) e3 = json.saveError e1 (json.saveError e2 e3).
Proof. destruct e1, e2; reflexivity. Qed.

Lemma saveError_None_r (e : option error) : json.saveError e None = e.
Proof. destruct e; reflexivity. Qed.

Lemma value_starts (t : list byte) (v : option any) d e :
  grammar.value t v d e -> exists c t', t = c :: t' /\ grammar.starts c.
Proof.
  unfold grammar.starts.
  intros [ | | | lit Hlit | | | | | ]; try (eexists _, _; split; [reflexivity|]; tauto).
  destruct (number_head lit Hlit) as (c & l & -> & Hc). eexists _, _.
  split; [reflexivity | tauto].
Qed.

Lemma value_depth_pos (t : list byte) (v : option any) d e :
  grammar.value t v d e -> 1 <= d.
Proof. intros []; lia. Qed.

Lemma elements_depth_pos (body : list byte) (vs : list (option any)) d e :
  grammar.elements body vs d e -> 1 <= d.
Proof.
  intros [? ? ? ? ? ? _ Ht _ | ? ? ? ? ? ? ? ? ? ? _ Ht _ _];
    apply value_depth_pos in Ht; lia.
Qed.

Lemma members_depth_pos (body : list byte) (kvs : list (string * option any)) d e :
  grammar.members body kvs d e -> 1 <= d.
Proof.
  intros [? ? ? ? ? ? ? ? ? ? _ _ _ _ _ Ht _ | ? ? ? ? ? ? ? ? ? ? ? ? ? ? _ _ _ _ _ Ht _ _];
    apply value_depth_pos in Ht; lia.
Qed.

Lemma skip_space_value (w t rest : list byte) (v : option any) d e :
  grammar.spaces w -> grammar.value t v d e ->
  json.skip_space (w ++ t ++ rest) = t ++ rest.
Proof.
  intros Hw Ht. rewrite skip_space_app by assumption.
  apply value_starts in Ht as (c & t' & -> & Hc).
  apply starts_not_space in Hc as [Hc _]. now apply skip_space_head.
Qed.

Lemma skip_space_to (w : list byte) (c : byte) (rest : list byte) :
  grammar.spaces w -> json.isSpace c = false ->
  json.skip_space (w ++ c :: rest) = c :: rest.
Proof.
  intros Hw Hc. rewrite skip_space_app by assumption. now apply skip_space_head.
Qed.

Lemma follows_after_spaces (w : list byte) (c : byte) (rest : list byte) :
  grammar.spaces w -> grammar.follows c ->
  grammar.head_is grammar.follows (w ++ c :: rest).
Proof.
  intros Hw Hc. destruct Hw as [|x w Hx _]; simpl; [assumption|].
  unfold grammar.follows. tauto.
Qed.

Section Loops.

(** A decoder of values that is right for texts nesting at most [L]
    deep. *)
Variable pv : option error -> list byte -> json.result.
Variable L : nat.

Hypothesis pv_sound :
  forall saved s v saved' rest,
    pv saved s = json.Ok v saved' rest ->
    exists t d e,
      s = t ++ rest /\ grammar.value t v d e /\ d <= L /\
      saved' = json.saveError saved e.

Hypothesis pv_settled : forall saved s, settled (pv saved s).

Lemma pv_shorter saved s v saved' rest :
  pv saved s = json.Ok v saved' rest -> length rest < length s.
Proof.
  intros H. apply pv_sound in H as (t & d & e & -> & Ht & _).
  apply value_nonempty in Ht. destruct t; [done|].
  rewrite length_app. simpl. lia.
Qed.

Lemma array_sound (n : nat) :
  forall elems saved s v saved' rest,
    json.array pv n elems saved s = json.Ok v saved' rest ->
    exists body vs d e,
      s = body ++ "]"%byte :: rest /\ grammar.elements body vs d e /\ d <= L /\
      v = Some (go_slice (elems ++ vs)) /\ saved' = json.saveError saved e.
Proof.
  induction n as [|n IH]; intros elems saved s v saved' rest; simpl; [discriminate|].
  destruct (pv saved s) as [v1 saved1 s1| | |] eqn:Hpv; try discriminate.
  apply pv_sound in Hpv as (t & d1 & e1 & -> & Ht & Hd1 & ->).
  destruct (skip_space_split s1) as (w & Hw & Hs1).
  destruct (json.skip_space s1) as [|c s2]; [discriminate|].
  case_decide as Hcomma; [|case_decide as Hclose; [|discriminate]].
  - intros H. apply IH in H as (body & vs & d2 & e2 & Hs2 & Hbody & Hd2 & -> & ->).
    destruct (skip_space_split s2) as (w' & Hw' & Hs2').
    exists (t ++ w ++ ","%byte :: w' ++ body), (v1 :: vs),
           (d1 `max` d2), (json.saveError e1 e2).
    split; [|split; [|split; [|split]]].
    + rewrite Hs1, Hs2', Hs2. subst c. flatten_text.
    + apply (grammar.elements_more [] t w); auto using elements_spaces.
      constructor.
    + lia.
    + now rewrite <- app_assoc.
    + apply saveError_assoc.
  - intros [= <- <- <-]. exists (t ++ w), [v1], d1, e1.
    split; [|split; [|split; [|split]]]; try reflexivity; try assumption.
    + rewrite Hs1. subst c. flatten_text.
    + apply (grammar.elements_last [] t w); auto. constructor.
Qed.

Lemma array_settled (n : nat) :
  forall elems saved s,
    length s < n -> settled (json.array pv n elems saved s).
Proof.
  induction n as [|n IH]; intros elems saved s Hlen; simpl; [lia|].
  destruct (pv saved s) as [v1 saved1 s1| | |] eqn:Hpv;
    try (rewrite <- Hpv; apply pv_settled); try (split; discriminate).
  apply pv_shorter in Hpv.
  pose proof (skip_space_length s1) as Hs1.
  destruct (json.skip_space s1) as [|c s2]; [split; discriminate|].
  simpl in Hs1. pose proof (skip_space_length s2).
  repeat case_decide; try (split; discriminate).
  apply IH. lia.
Qed.

Lemma object_sound (n : nat) :
  forall m saved s v saved' rest,
    json.object pv n m saved s = json.Ok v saved' rest ->
    exists body kvs d e,
      s = body ++ "}"%byte :: rest /\ grammar.members body kvs d e /\ d <= L /\
      v = Some (go_map (grammar.store m kvs)) /\ saved' = json.saveError saved e.
Proof.
  induction n as [|n IH]; intros m saved s v saved' rest; simpl; [discriminate|].
  destruct s as [|c s1]; [discriminate|].
  case_decide as Hq; [subst c|discriminate].
  destruct (json.scan_string s1) as [[raw s2]|] eqn:Hscan; [|discriminate].
  apply scan_string_split in Hscan as [-> Hraw].
  destruct (json.unquote 0 raw) as [key|] eqn:Hkey; [|discriminate].
  destruct (skip_space_split s2) as (w2 & Hw2 & Hs2).
  destruct (json.skip_space s2) as [|c' s3]; [discriminate|].
  case_decide as Hcolon; [subst c'|discriminate].
  destruct (skip_space_split s3) as (w3 & Hw3 & Hs3).
  destruct (pv saved (json.skip_space s3)) as [v1 saved1 s4| | |] eqn:Hpv;
    try discriminate.
  apply pv_sound in Hpv as (t & d1 & e1 & Ht' & Ht & Hd1 & ->).
  rewrite Ht' in Hs3. clear Ht'.
  destruct (skip_space_split s4) as (w4 & Hw4 & Hs4).
  destruct (json.skip_space s4) as [|c'' s5]; [discriminate|].
  case_decide as Hcomma; [|case_decide as Hclose; [|discriminate]].
  - intros H. apply IH in H as (body & kvs & d2 & e2 & Hs5 & Hbody & Hd2 & -> & ->).
    destruct (skip_space_split s5) as (w5 & Hw5 & Hs5').
    exists (json.quote :: raw ++ json.quote :: w2 ++ ":"%byte :: w3 ++ t ++ w4
              ++ ","%byte :: w5 ++ body),
           ((string_of_bytes key, v1) :: kvs),
           (d1 `max` d2), (json.saveError e1 e2).
    split; [|split; [|split; [|split]]].
    + rewrite Hs2, Hs3, Hs4, Hs5', Hs5. subst c''. flatten_text.
    + apply (grammar.members_more [] raw key w2 w3 t w4);
        auto using members_spaces. constructor.
    + lia.
    + reflexivity.
    + apply saveError_assoc.
  - intros [= <- <- <-].
    exists (json.quote :: raw ++ json.quote :: w2 ++ ":"%byte :: w3 ++ t ++ w4),
           [(string_of_bytes key, v1)], d1, e1.
    split; [|split; [|split; [|split]]]; try reflexivity; try assumption.
    + rewrite Hs2, Hs3, Hs4. subst c''. flatten_text.
    + apply (grammar.members_last [] raw key w2 w3 t w4); auto. constructor.
Qed.

Lemma object_settled (n : nat) :
  forall m saved s,
    length s < n -> settled (json.object pv n m saved s).
Proof.
  induction n as [|n IH]; intros m saved s Hlen; simpl; [lia|].
  destruct s as [|c s1]; [split; discriminate|]. simpl in Hlen.
  case_decide as Hq; [|split; discriminate].
  destruct (json.scan_string s1) as [[raw s2]|] eqn:Hscan; [|split; discriminate].
  apply scan_string_split in Hscan as [-> Hraw].
  destruct (unquote_chars raw Hraw) as [key ->].
  rewrite length_app in Hlen. simpl in Hlen.
  pose proof (skip_space_length s2) as Hs2.
  destruct (json.skip_space s2) as [|c' s3]; [split; discriminate|].
  simpl in Hs2.
  case_decide as Hcolon; [|split; discriminate].
  pose proof (skip_space_length s3) as Hs3.
  destruct (pv saved (json.skip_space s3)) as [v1 saved1 s4| | |] eqn:Hpv;
    try (rewrite <- Hpv; apply pv_settled); try (split; discriminate).
  apply pv_shorter in Hpv.
  pose proof (skip_space_length s4) as Hs4.
  destruct (json.skip_space s4) as [|c'' s5]; [split; discriminate|].
  simpl in Hs4. pose proof (skip_space_length s5).
  repeat case_decide; try (split; discriminate).
  apply IH. lia.
Qed.

Hypothesis pv_complete :
  forall t v d e rest saved,
    grammar.value t v d e -> d <= L ->
    grammar.head_is grammar.follows rest ->
    pv saved (t ++ rest) = json.Ok v (json.saveError saved e) rest.

Lemma array_complete (body : list byte) (vs : list (option any)) d e :
  grammar.elements body vs d e -> d <= L ->
  forall n elems saved rest,
    length (body ++ "]"%byte :: rest) < n ->
    json.array pv n elems saved (json.skip_space (body ++ "]"%byte :: rest))
    = json.Ok (Some (go_slice (elems ++ vs))) (json.saveError saved e) rest.
Proof.
  induction 1 as [w1 t w2 v d e Hw1 Ht Hw2
                 | w1 t w2 body v vs d1 d2 e1 e2 Hw1 Ht Hw2 Hbody IH];
    intros Hd n elems saved rest Hlen; (destruct n as [|n]; [lia|]).
  - replace ((w1 ++ t ++ w2) ++ "]"%byte :: rest)
      with (w1 ++ t ++ (w2 ++ "]"%byte :: rest)) by flatten_text.
    rewrite (skip_space_value w1 t _ v d e) by assumption. simpl.
    rewrite (pv_complete t v d e) by
      first [assumption | lia | apply follows_after_spaces;
                                [assumption | unfold grammar.follows; tauto]].
    rewrite skip_space_to by (assumption || reflexivity).
    repeat case_decide; done.
  - replace ((w1 ++ t ++ w2 ++ ","%byte :: body) ++ "]"%byte :: rest)
      with (w1 ++ t ++ (w2 ++ ","%byte :: body ++ "]"%byte :: rest)) in *
      by flatten_text.
    rewrite (skip_space_value w1 t _ v d1 e1) by assumption. simpl.
    rewrite (pv_complete t v d1 e1) by
      first [assumption | lia | apply follows_after_spaces;
                                [assumption | unfold grammar.follows; tauto]].
    rewrite skip_space_to by (assumption || reflexivity).
    case_decide; [|done].
    rewrite IH.
    + now rewrite <- app_assoc, saveError_assoc.
    + lia.
    + apply value_nonempty in Ht. destruct t; [done|].
      rewrite !length_app in Hlen. simpl in Hlen. rewrite !length_app in Hlen.
      simpl in Hlen. rewrite length_app. simpl. lia.
Qed.

Lemma object_complete (body : list byte) (kvs : list (string * option any)) d e :
  grammar.members body kvs d e -> d <= L ->
  forall n m saved rest,
    length (body ++ "}"%byte :: rest) < n ->
    json.object pv n m saved (json.skip_space (body ++ "}"%byte :: rest))
    = json.Ok (Some (go_map (grammar.store m kvs))) (json.saveError saved e) rest.
Proof.
  induction 1 as [w1 raw key w2 w3 t w4 v d e Hw1 Hraw Hkey Hw2 Hw3 Ht Hw4
                 | w1 raw key w2 w3 t w4 body v kvs d1 d2 e1 e2
                     Hw1 Hraw Hkey Hw2 Hw3 Ht Hw4 Hbody IH];
    intros Hd n m saved rest Hlen; (destruct n as [|n]; [lia|]);
    unfold grammar.quote in *.
  - replace ((w1 ++ json.quote :: raw ++ json.quote :: w2 ++ ":"%byte :: w3 ++ t ++ w4)
               ++ "}"%byte :: rest)
      with (w1 ++ json.quote :: raw ++ json.quote :: w2 ++ ":"%byte
               :: w3 ++ t ++ (w4 ++ "}"%byte :: rest)) by flatten_text.
    rewrite skip_space_to by (assumption || reflexivity). simpl.
    try (case_decide; [|done]).
    rewrite scan_string_app, Hkey by assumption.
    rewrite skip_space_to by (assumption || reflexivity).
    try (case_decide; [|done]).
    rewrite (skip_space_value w3 t _ v d e) by assumption.
    rewrite (pv_complete t v d e) by
      first [assumption | lia | apply follows_after_spaces;
                                [assumption | unfold grammar.follows; tauto]].
    rewrite skip_space_to by (assumption || reflexivity).
    repeat case_decide; done.
  - replace ((w1 ++ json.quote :: raw ++ json.quote :: w2 ++ ":"%byte :: w3 ++ t ++ w4
                 ++ ","%byte :: body) ++ "}"%byte :: rest)
      with (w1 ++ json.quote :: raw ++ json.quote :: w2 ++ ":"%byte
               :: w3 ++ t ++ (w4 ++ ","%byte :: body ++ "}"%byte :: rest)) in *
      by flatten_text.
    rewrite skip_space_to by (assumption || reflexivity). simpl.
    try (case_decide; [|done]).
    rewrite scan_string_app, Hkey by assumption.
    rewrite skip_space_to by (assumption || reflexivity).
    try (case_decide; [|done]).
    rewrite (skip_space_value w3 t _ v d1 e1) by assumption.
    rewrite (pv_complete t v d1 e1) by
      first [assumption | lia | apply follows_after_spaces;
                                [assumption | unfold grammar.follows; tauto]].
    rewrite skip_space_to by (assumption || reflexivity).
    try (case_decide; [|done]).
    rewrite IH.
    + now rewrite saveError_assoc.
    + lia.
    + rewrite !length_app in Hlen. simpl in Hlen. rewrite !length_app in Hlen.
      simpl in Hlen. rewrite !length_app in Hlen. simpl in Hlen.
      rewrite !length_app in Hlen. simpl in Hlen. lia.
Qed.

End Loops.

#[local] Arguments json.array : simpl never.
#[local] Arguments json.object : simpl never.
#[local] Arguments json.scan_number : simpl never.
#[local] Arguments json.scan_string : simpl never.
#[local] Arguments json.unquote : simpl never.
#[local] Arguments json.expect : simpl never.
#[local] Arguments json.convertNumber : simpl never.
#[local] Arguments json.bytes_of_string : simpl never.

(** What the decoder reads off the front of its input is a JSON value
    that nests no deeper than the levels it was given, the value it builds
    is the one the text stands for, and the error it saves is the first of
    the text; it neither panics nor runs out of passes. *)
Lemma value_sound_settled (levels : nat) :
  (forall saved s v saved' rest,
      json.value levels saved s = json.Ok v saved' rest ->
      exists t d e,
        s = t ++ rest /\ grammar.value t v d e /\ d <= levels /\
        saved' = json.saveError saved e) /\
  (forall saved s, settled (json.value levels saved s)).
Proof.
  induction levels as [|levels [IHsound IHsettled]].
  { split; [discriminate | split; discriminate]. }
  split.
  - intros saved s v saved' rest. simpl.
    destruct s as [|c s1]; [discriminate|].
    case_decide as Hobj.
    { subst c. destruct levels as [|l]; [discriminate|].
      destruct (skip_space_split s1) as (w & Hw & Hs1).
      destruct (json.skip_space s1) as [|c' s2]; [discriminate|].
      case_decide as Hclose.
      - intros [= <- <- <-]. subst c'.
        exists ("{"%byte :: w ++ ["}"%byte]), 2, None.
        split; [|split; [|split]].
        + rewrite Hs1. flatten_text.
        + now constructor.
        + lia.
        + now rewrite saveError_None_r.
      - intros H.
        apply (object_sound _ _ IHsound) in H
          as (body & kvs & d & e & Hb & Hm & Hd & -> & ->).
        exists ("{"%byte :: (w ++ body) ++ ["}"%byte]), (S d), e.
        split; [|split; [|split]]; [| |lia|reflexivity].
        + rewrite Hs1, Hb. flatten_text.
        + constructor. now apply members_spaces. }
    case_decide as Harr.
    { subst c. destruct levels as [|l]; [discriminate|].
      destruct (skip_space_split s1) as (w & Hw & Hs1).
      destruct (json.skip_space s1) as [|c' s2]; [discriminate|].
      case_decide as Hclose.
      - intros [= <- <- <-]. subst c'.
        exists ("["%byte :: w ++ ["]"%byte]), 2, None.
        split; [|split; [|split]].
        + rewrite Hs1. flatten_text.
        + now constructor.
        + lia.
        + now rewrite saveError_None_r.
      - intros H.
        apply (array_sound _ _ IHsound) in H
          as (body & vs & d & e & Hb & Hm & Hd & -> & ->).
        exists ("["%byte :: (w ++ body) ++ ["]"%byte]), (S d), e.
        split; [|split; [|split]]; [| |lia|reflexivity].
        + rewrite Hs1, Hb. flatten_text.
        + constructor. now apply elements_spaces. }
    case_decide as Hstr.
    { subst c.
      destruct (json.scan_string s1) as [[raw rest']|] eqn:Hscan; [|discriminate].
      apply scan_string_split in Hscan as [-> Hraw].
      destruct (json.unquote 0 raw) as [b|] eqn:Hb; [|discriminate].
      intros [= <- <- <-].
      exists (json.quote :: raw ++ [json.quote]), 1, None.
      split; [flatten_text|]. split; [now constructor|].
      split; [lia | now rewrite saveError_None_r]. }
    case_decide as Hn.
    { subst c.
      destruct (json.expect (json.bytes_of_string "ull") s1) as [rest'|] eqn:He;
        [|discriminate].
      apply expect_split in He as ->. intros [= <- <- <-].
      exists (json.bytes_of_string "null"), 1, None.
      split; [reflexivity|]. split; [constructor|].
      split; [lia | now rewrite saveError_None_r]. }
    case_decide as Ht.
    { subst c.
      destruct (json.expect (json.bytes_of_string "rue") s1) as [rest'|] eqn:He;
        [|discriminate].
      apply expect_split in He as ->. intros [= <- <- <-].
      exists (json.bytes_of_string "true"), 1, None.
      split; [reflexivity|]. split; [constructor|].
      split; [lia | now rewrite saveError_None_r]. }
    case_decide as Hf.
    { subst c.
      destruct (json.expect (json.bytes_of_string "alse") s1) as [rest'|] eqn:He;
        [|discriminate].
      apply expect_split in He as ->. intros [= <- <- <-].
      exists (json.bytes_of_string "false"), 1, None.
      split; [reflexivity|]. split; [constructor|].
      split; [lia | now rewrite saveError_None_r]. }
    destruct (json.scan_number (c :: s1)) as [[lit rest']|] eqn:Hnum; [|discriminate].
    apply scan_number_split in Hnum as [Hs Hlit].
    destruct (json.convertNumber lit) as [x err] eqn:Hconv.
    intros [= <- <- <-]. exists lit, 1, err. split; [assumption|].
    replace x with (json.convertNumber lit).1 by now rewrite Hconv.
    replace err with (json.convertNumber lit).2 at 1 by now rewrite Hconv.
    split; [now constructor|]. split; [lia | reflexivity].
  - intros saved s. simpl.
    destruct s as [|c s1]; [split; discriminate|].
    case_decide as Hobj.
    { destruct levels as [|l]; [split; discriminate|].
      pose proof (skip_space_length s1).
      destruct (json.skip_space s1) as [|c' s2]; [split; discriminate|].
      case_decide; [split; discriminate|].
      apply (object_settled _ _ IHsound IHsettled). lia. }
    case_decide as Harr.
    { destruct levels as [|l]; [split; discriminate|].
      pose proof (skip_space_length s1).
      destruct (json.skip_space s1) as [|c' s2]; [split; discriminate|].
      case_decide; [split; discriminate|].
      apply (array_settled _ _ IHsound IHsettled). lia. }
    case_decide as Hstr.
    { destruct (json.scan_string s1) as [[raw rest']|] eqn:Hscan; [|split; discriminate].
      apply scan_string_split in Hscan as [-> Hraw].
      destruct (unquote_chars raw Hraw) as [b ->]. split; discriminate. }
    repeat case_decide;
      repeat match goal with
             | |- context [match ?x with _ => _ end] => destruct x
             end; split; discriminate.
Qed.

Lemma elements_skip_space (body rest : list byte) (vs : list (option any)) d e :
  grammar.elements body vs d e ->
  exists c s, json.skip_space (body ++ rest) = c :: s /\ grammar.starts c.
Proof.
  intros [w1 t w2 v d' e' Hw1 Ht Hw2 | w1 t w2 body' v vs' d1 d2 e1 e2 Hw1 Ht Hw2 _];
    rewrite <- !app_assoc; rewrite (skip_space_value w1 t _ _ _ _ Hw1 Ht);
    apply value_starts in Ht as (c & t' & -> & Hc); simpl; eauto.
Qed.

Lemma members_skip_space (body rest : list byte) (kvs : list (string * option any)) d e :
  grammar.members body kvs d e ->
  exists s, json.skip_space (body ++ rest) = json.quote :: s.
Proof.
  intros [w1 raw key w2 w3 t w4 v d' e' Hw1 _ _ _ _ _ _
         | w1 raw key w2 w3 t w4 body' v kvs' d1 d2 e1 e2 Hw1 _ _ _ _ _ _ _];
    rewrite <- !app_assoc; rewrite skip_space_app by assumption;
    unfold grammar.quote; simpl; eauto.
Qed.

(** The decoder reads every JSON value that nests no deeper than the
    levels it is given, when what follows the value can follow one. *)
Lemma value_complete (levels : nat) :
  forall t v d e rest saved,
    grammar.value t v d e -> d <= levels ->
    grammar.head_is grammar.follows rest ->
    json.value levels saved (t ++ rest) = json.Ok v (json.saveError saved e) rest.
Proof.
  induction levels as [|levels IH]; intros t v d e rest saved Ht Hd Hrest.
  { apply value_depth_pos in Ht. lia. }
  destruct (value_sound_settled levels) as [IHsound IHsettled].
  destruct Ht as [ | | | lit Hlit | raw b Hraw Hb | w Hw | body vs d e Hbody
                 | w Hw | body kvs d e Hbody ]; unfold grammar.quote in *.
  - change (json.bytes_of_string "null" ++ rest)
      with ("n"%byte :: json.bytes_of_string "ull" ++ rest).
    simpl. repeat (case_decide; try done).
    rewrite ?(expect_app (json.bytes_of_string "ull")). now rewrite saveError_None_r.
  - change (json.bytes_of_string "true" ++ rest)
      with ("t"%byte :: json.bytes_of_string "rue" ++ rest).
    simpl. repeat (case_decide; try done).
    rewrite ?(expect_app (json.bytes_of_string "rue")). now rewrite saveError_None_r.
  - change (json.bytes_of_string "false" ++ rest)
      with ("f"%byte :: json.bytes_of_string "alse" ++ rest).
    simpl. repeat (case_decide; try done).
    rewrite ?(expect_app (json.bytes_of_string "alse")). now rewrite saveError_None_r.
  - destruct (number_head lit Hlit) as (c & l & Hl & Hc).
    assert (Hnum := scan_number_app lit rest Hlit Hrest).
    rewrite Hl in *. simpl.
    assert (Hne : c ≠ "{"%byte /\ c ≠ "["%byte /\ c ≠ json.quote /\ c ≠ "n"%byte /\
                  c ≠ "t"%byte /\ c ≠ "f"%byte).
    { unfold grammar.digit in Hc.
      repeat split; intros ->;
        (destruct Hc as [Hc | Hc];
         [discriminate | vm_compute in Hc; destruct Hc; congruence]). }
    destruct Hne as (H1 & H2 & H3 & H4 & H5 & H6).
    repeat (case_decide; try done).
    simpl in Hnum. rewrite Hnum. now destruct (json.convertNumber (c :: l)).
  - simpl. repeat (case_decide; try done).
    rewrite <- app_assoc. simpl. rewrite scan_string_app, Hb by assumption.
    now rewrite saveError_None_r.
  - simpl. repeat (case_decide; try done).
    destruct levels as [|l]; [lia|].
    rewrite <- app_assoc. simpl.
    rewrite skip_space_to by (assumption || reflexivity).
    repeat (case_decide; try done). now rewrite saveError_None_r.
  - simpl. repeat (case_decide; try done).
    pose proof (elements_depth_pos _ _ _ _ Hbody).
    destruct levels as [|l]; [lia|].
    rewrite <- app_assoc. simpl.
    destruct (elements_skip_space body ("]"%byte :: rest) vs d e Hbody)
      as (c & s & Hskip & Hc).
    rewrite Hskip. apply starts_not_space in Hc as (_ & Hc & _).
    case_decide; [done|]. rewrite <- Hskip.
    apply (array_complete _ (S l) (IH) body vs d e Hbody); lia.
  - simpl. repeat (case_decide; try done).
    destruct levels as [|l]; [lia|].
    rewrite <- app_assoc. simpl.
    rewrite skip_space_to by (assumption || reflexivity).
    repeat (case_decide; try done). now rewrite saveError_None_r.
  - simpl. repeat (case_decide; try done).
    pose proof (members_depth_pos _ _ _ _ Hbody).
    destruct levels as [|l]; [lia|].
    rewrite <- app_assoc. simpl.
    destruct (members_skip_space body ("}"%byte :: rest) kvs d e Hbody)
      as (s & Hskip).
    rewrite Hskip. case_decide; [done|]. rewrite <- Hskip.
    apply (object_complete _ (S l) (IH) body kvs d e Hbody); lia.
Qed.

(** ** [json.Unmarshal] *)

Lemma Unmarshal_cases (data : list byte) (v : option any) :
  (exists x saved d,
      json.Unmarshal data v = Returns (x, saved) /\
      grammar.document data x d saved /\ d <= S json.maxNestingDepth) \/
  json.Unmarshal data v = Returns (v, Some json_SyntaxError).
Proof.
  unfold json.Unmarshal.
  destruct (value_sound_settled (S json.maxNestingDepth)) as [Hsound Hsettled].
  destruct (skip_space_split data) as (w1 & Hw1 & Hdata).
  destruct (json.value (S json.maxNestingDepth) None (json.skip_space data))
    as [x saved rest| | |] eqn:Hvalue.
  - apply Hsound in Hvalue as (t & d & e & Ht & Hv & Hd & ->).
    destruct (json.skip_space rest) as [|c rest'] eqn:Hrest; [|now right].
    left. exists x, e, d. split; [reflexivity|]. split; [|assumption].
    exists w1, t, rest. repeat split; try assumption.
    + now apply skip_space_nil_spaces.
    + now rewrite <- Ht.
  - now right.
  - destruct (Hsettled None (json.skip_space data)) as [H _]. now rewrite Hvalue in H.
  - destruct (Hsettled None (json.skip_space data)) as [_ H]. now rewrite Hvalue in H.
Qed.


(** ** The value decoder: JSON variants *)

Lemma Unmarshal_complete (data : list byte) (v x : option any) d e :
  grammar.document data x d e -> d <= S json.maxNestingDepth ->
  json.Unmarshal data v = Returns (x, e).
Proof.
  intros (w1 & t & w2 & Hw1 & Ht & Hw2 & ->) Hd. unfold json.Unmarshal.
  rewrite (skip_space_value w1 t w2 x d e Hw1 Ht).
  rewrite (value_complete _ t x d e w2 None Ht Hd).
  - replace (json.skip_space w2) with (@nil byte); [reflexivity|].
    rewrite <- (app_nil_r w2) at 1. now rewrite skip_space_app.
  - destruct Hw2 as [|c w2 Hc _]; simpl; [exact I|].
    unfold grammar.follows. tauto.
Qed.

(** ** The value decoder: JSON variants *)



(** * Further properties *)

(** ** The path formatter *)

Lemma permutations_short {A : Type} (l : list A) :
  length l <= 1 -> permutations l = [l].
Proof. destruct l as [|x [|y l]]; simpl; intros; [reflexivity..|lia]. Qed.

Lemma path_elem_strings_single (pe : option gnmi.PathElem) :
  size (key_map pe) <= 1 -> path_elem_strings pe = [rendering pe].
Proof.
  unfold path_elem_strings, rendering, key_map.
  rewrite <- length_map_to_list.
  assert (Hname : (if decide (gnmi.GetName pe ≠ "")
                   then ("" ++ gnmi.GetName pe)%string else "") = gnmi.GetName pe).
  { case_decide as Hn; [reflexivity | now rewrite Hn]. }
  rewrite Hname. clear Hname.
  destruct (gnmi.GetKey pe) as [m|]; simpl.
  - intros Hm. rewrite (permutations_short _ Hm). simpl.
    now rewrite append_keys_bracketed.
  - intros _. rewrite map_to_list_empty. simpl. now rewrite string_app_nil_r.
Qed.

Lemma path_loop_single (pes : list (option gnmi.PathElem)) (acc : list string) :
  Forall (fun pe => size (key_map pe) <= 1) pes ->
  path_loop pes acc = [strings_Join (acc ++ (rendering <$> pes)) "/"].
Proof.
  intros H. revert acc. induction H as [|pe pes Hpe _ IH]; intros acc; simpl.
  - now rewrite app_nil_r.
  - rewrite (path_elem_strings_single pe Hpe). simpl.
    rewrite IH, app_nil_r. now rewrite <- app_assoc.
Qed.

(** X1. When no element of the path has more than one key, the order in
    which Go ranges over the key maps cannot show: [gnmiPathToXPath] has
    one possible result, the renderings of the elements joined with a
    slash. *)
Theorem gnmiPathToXPath_single_keys (p : gnmi.Path) :
  Forall (fun pe => size (key_map pe) <= 1) (gnmi.Elem p) ->
  gnmiPathToXPath (Some p) = [String.concat "/" (rendering <$> gnmi.Elem p)].
Proof.
  intros H. simpl. rewrite (path_loop_single _ [] H). simpl.
  now rewrite strings_Join_concat.
Qed.

Lemma gnmiPathToXPath_single_keys_witness :
  gnmiPathToXPath
    (Some {| gnmi.Elem :=
               [named "interfaces";
                Some {| gnmi.Name := "interface";
                        gnmi.Key := Some {[ "name" := "eth0" ]} |}] |})
  = ["interfaces/interface[name=eth0]"].
Proof.
  rewrite gnmiPathToXPath_single_keys by (repeat constructor).
  vm_compute. reflexivity.
Defined.

Lemma strings_Join_app (rs1 rs2 : list string) (sep : string) :
  rs1 ≠ [] -> rs2 ≠ [] ->
  strings_Join (rs1 ++ rs2) sep
  = (strings_Join rs1 sep ++ sep ++ strings_Join rs2 sep)%string.
Proof.
  intros H1 H2. induction rs1 as [|r [|r' rs1] IH]; [done| |].
  - destruct rs2; [done | reflexivity].
  - change (strings_Join ((r :: r' :: rs1) ++ rs2) sep)
      with (r ++ sep ++ strings_Join ((r' :: rs1) ++ rs2) sep)%string.
    rewrite IH by discriminate.
    change (strings_Join (r :: r' :: rs1) sep)
      with (r ++ sep ++ strings_Join (r' :: rs1) sep)%string.
    now rewrite !string_app_assoc.
Qed.

Lemma gnmiPathToXPath_rendered (es : list (option gnmi.PathElem)) (s : string) :
  s ∈ gnmiPathToXPath (Some {| gnmi.Elem := es |}) <->
  exists rs, Forall2 rendered_as es rs /\ s = strings_Join rs "/".
Proof. simpl. now rewrite path_loop_elem. Qed.

(** X2. Formatting distributes over the concatenation of two non-empty
    paths: the possible results for the elements of one followed by the
    elements of the other are the results for the first, a slash, and the
    results for the second. *)
Theorem gnmiPathToXPath_app (es1 es2 : list (option gnmi.PathElem)) (s : string) :
  es1 ≠ [] -> es2 ≠ [] ->
  s ∈ gnmiPathToXPath (Some {| gnmi.Elem := es1 ++ es2 |}) <->
  exists s1 s2,
    s1 ∈ gnmiPathToXPath (Some {| gnmi.Elem := es1 |}) /\
    s2 ∈ gnmiPathToXPath (Some {| gnmi.Elem := es2 |}) /\
    s = (s1 ++ "/" ++ s2)%string.
Proof.
  intros H1 H2. rewrite gnmiPathToXPath_rendered. split.
  - intros (rs & Hrs & ->).
    apply Forall2_app_inv_l in Hrs as (rs1 & rs2 & Hrs1 & Hrs2 & ->).
    exists (strings_Join rs1 "/"), (strings_Join rs2 "/").
    split; [apply gnmiPathToXPath_rendered; eauto|].
    split; [apply gnmiPathToXPath_rendered; eauto|].
    apply strings_Join_app.
    + intros ->. apply Forall2_nil_inv_r in Hrs1. contradiction.
    + intros ->. apply Forall2_nil_inv_r in Hrs2. contradiction.
  - intros (s1 & s2 & Hs1 & Hs2 & ->).
    apply gnmiPathToXPath_rendered in Hs1 as (rs1 & Hrs1 & ->).
    apply gnmiPathToXPath_rendered in Hs2 as (rs2 & Hrs2 & ->).
    exists (rs1 ++ rs2). split; [now apply Forall2_app|].
    symmetry. apply strings_Join_app.
    + intros ->. apply Forall2_nil_inv_r in Hrs1. contradiction.
    + intros ->. apply Forall2_nil_inv_r in Hrs2. contradiction.
Qed.

Lemma gnmiPathToXPath_app_witness :
  "a/b" ∈ gnmiPathToXPath (Some {| gnmi.Elem := [named "a"] ++ [named "b"] |}) <->
  exists s1 s2,
    s1 ∈ gnmiPathToXPath (Some {| gnmi.Elem := [named "a"] |}) /\
    s2 ∈ gnmiPathToXPath (Some {| gnmi.Elem := [named "b"] |}) /\
    "a/b" = (s1 ++ "/" ++ s2)%string.
Proof.
  apply (gnmiPathToXPath_app [named "a"] [named "b"] "a/b"); discriminate.
Defined.

Lemma string_length_app (a b : string) :
  String.length (a ++ b) = String.length a + String.length b.
Proof.
  induction a as [|x a IH]; [reflexivity|].
  change (S (String.length (a ++ b)) = S (String.length a + String.length b)).
  now rewrite IH.
Qed.

Lemma bracketed_length (kvs1 kvs2 : list (string * string)) :
  kvs1 ≡ₚ kvs2 ->
  String.length (bracketed kvs1) = String.length (bracketed kvs2).
Proof.
  induction 1 as [|kv l1 l2 _ IH|kv1 kv2 l|l1 l2 l3 _ IH1 _ IH2]; simpl.
  - reflexivity.
  - rewrite !string_length_app, IH. reflexivity.
  - rewrite !string_length_app. simpl. lia.
  - congruence.
Qed.

Lemma rendered_as_length (pe : option gnmi.PathElem) (r1 r2 : string) :
  rendered_as pe r1 -> rendered_as pe r2 -> String.length r1 = String.length r2.
Proof.
  intros (kvs1 & H1 & ->) (kvs2 & H2 & ->). rewrite !string_length_app.
  f_equal. apply bracketed_length. now rewrite H1, H2.
Qed.

Lemma strings_Join_length (rs1 rs2 : list string) (sep : string) :
  Forall2 (fun r1 r2 => String.length r1 = String.length r2) rs1 rs2 ->
  String.length (strings_Join rs1 sep) = String.length (strings_Join rs2 sep).
Proof.
  induction 1 as [|r1 r2 rs1 rs2 Hr Hrs IH]; [reflexivity|].
  destruct Hrs as [|r1' r2' rs1 rs2 Hr' Hrs]; [exact Hr|].
  change (String.length (r1 ++ sep ++ strings_Join (r1' :: rs1) sep)
          = String.length (r2 ++ sep ++ strings_Join (r2' :: rs2) sep)).
  rewrite !string_length_app, IH, Hr. reflexivity.
Qed.

(** X3. Whatever order Go ranges over the keys in, the results of
    [gnmiPathToXPath] for one path have the same length: they differ only
    in the order of the bracketed keys. *)
Theorem gnmiPathToXPath_same_length (p : option gnmi.Path) (s1 s2 : string) :
  s1 ∈ gnmiPathToXPath p -> s2 ∈ gnmiPathToXPath p ->
  String.length s1 = String.length s2.
Proof.
  destruct p as [[es]|]; simpl.
  - rewrite !path_loop_elem. simpl.
    intros (rs1 & H1 & ->) (rs2 & H2 & ->). apply strings_Join_length.
    revert rs2 H2. induction H1 as [|pe r1 es rs1 Hr1 _ IH]; intros rs2 H2.
    + apply Forall2_nil_inv_l in H2 as ->. constructor.
    + apply Forall2_cons_inv_l in H2 as (r2 & rs2' & Hr2 & H2 & ->).
      constructor; [eapply rendered_as_length; eassumption | now apply IH].
  - rewrite !list_elem_of_singleton. now intros -> ->.
Qed.

Lemma gnmiPathToXPath_same_length_witness :
  String.length "b[k=v][a=1]" = String.length "b[a=1][k=v]".
Proof.
  apply (gnmiPathToXPath_same_length (Some two_keys)); vm_compute.
  - apply list_elem_of_here.
  - apply list_elem_of_further, list_elem_of_here.
Defined.

Lemma rendering_named (name : string) : rendering (named name) = name.
Proof.
  unfold rendering, named, key_map. simpl.
  rewrite map_to_list_empty. simpl. apply string_app_nil_r.
Qed.

Lemma named_one_key (name : string) : size (key_map (named name)) <= 1.
Proof. unfold named, key_map. simpl. rewrite map_size_empty. lia. Qed.

(** X4. Names are not escaped: an element whose name contains a slash
    is formatted like the two elements named by what stands before and
    after the slash, so the path cannot be read back from the string. *)
Theorem gnmiPathToXPath_slash_in_name (a b : string) :
  gnmiPathToXPath (Some {| gnmi.Elem := [named (a ++ "/" ++ b)] |})
  = gnmiPathToXPath (Some {| gnmi.Elem := [named a; named b] |}) /\
  [named (a ++ "/" ++ b)] ≠ [named a; named b].
Proof.
  split; [|discriminate].
  unfold gnmiPathToXPath, gnmi.GetElem. cbn [gnmi.Elem].
  rewrite !path_loop_single by (repeat constructor; apply named_one_key).
  simpl. now rewrite !rendering_named.
Qed.

(** ** The value decoder *)

Lemma getValue_json_Unmarshal (payload : list byte) :
  getValue (JsonVal payload) =
  match json.Unmarshal payload None with
  | Returns (value, Some e) => Returns (None, Some e)
  | Returns (value, None) => Returns (value, None)
  | Panics => Panics
  | OutOfFuel => OutOfFuel
  end /\
  getValue (JsonIetfVal payload) = getValue (JsonVal payload).
Proof.
  split; [|reflexivity].
  unfold JsonVal, getValue. cbn [gnmi.Value].
  destruct (json.Unmarshal payload None) as [[x [e|]]| |]; reflexivity.
Qed.




Lemma getValue_json_iff (payload : list byte) (v : option any) :
  getValue (JsonVal payload) = Returns (v, None) <->
  exists d, d <= S json.maxNestingDepth /\ grammar.document payload v d None.
Proof.
  destruct (getValue_json_Unmarshal payload) as [-> _]. split.
  - destruct (Unmarshal_cases payload None) as [(x & saved & d & -> & Hdoc & Hd) | ->].
    + destruct saved as [e|]; [discriminate|]. intros [= <-]. eauto.
    + discriminate.
  - intros (d & Hd & Hdoc).
    now rewrite (Unmarshal_complete payload None v d None Hdoc Hd).
Qed.

Lemma value_nil_null (t : list byte) (d : nat) :
  grammar.value t None d None -> t = json.bytes_of_string "null".
Proof.
  intros H. inversion H as [ | | | lit Hlit Ht Hv Hd He | | | | | ]; [reflexivity|].
  unfold json.convertNumber in *.
  destruct (strconv.ParseFloat t); discriminate.
Qed.

(** X6. [getValue] returns the nil value with a nil error only for a JSON
    or JSON-IETF variant whose payload is the literal [null], possibly
    with white space around it, and for every such value. *)
Theorem getValue_nil_nil (tv : gnmi.TypedValue) :
  getValue (Some tv) = Returns (None, None) <->
  exists payload w1 w2,
    (gnmi.Value tv = Some (gnmi.TypedValue_JsonVal payload) \/
     gnmi.Value tv = Some (gnmi.TypedValue_JsonIetfVal payload)) /\
    grammar.spaces w1 /\ grammar.spaces w2 /\
    payload = w1 ++ json.bytes_of_string "null" ++ w2.
Proof.
  assert (Hjson : forall payload,
    getValue (JsonVal payload) = Returns (None, None) <->
    exists w1 w2, grammar.spaces w1 /\ grammar.spaces w2 /\
                  payload = w1 ++ json.bytes_of_string "null" ++ w2).
  { intros payload. rewrite getValue_json_iff. split.
    - intros (d & _ & w1 & t & w2 & Hw1 & Ht & Hw2 & ->).
      apply value_nil_null in Ht as ->. eauto.
    - intros (w1 & w2 & Hw1 & Hw2 & ->). exists 1. split; [lia|].
      exists w1, (json.bytes_of_string "null"), w2.
      repeat split; try assumption. constructor. }
  destruct tv as [[x|]].
  - destruct x as [s|i|u|b|b|fl|dv|l|a|payload|payload|s|b];
      try (split; [discriminate | intros (p & w1 & w2 & [H | H] & _); discriminate]).
    + change (Some (gnmi.Build_TypedValue (Some (gnmi.TypedValue_JsonVal payload))))
        with (JsonVal payload).
      rewrite Hjson. simpl. split.
      * intros (w1 & w2 & Hp). exists payload, w1, w2. split; [now left | exact Hp].
      * intros (p & w1 & w2 & [[= <-] | [=]] & Hp). eauto.
    + change (Some (gnmi.Build_TypedValue (Some (gnmi.TypedValue_JsonIetfVal payload))))
        with (JsonIetfVal payload).
      destruct (getValue_json_Unmarshal payload) as [_ ->].
      rewrite Hjson. simpl. split.
      * intros (w1 & w2 & Hp). exists payload, w1, w2. split; [now right | exact Hp].
      * intros (p & w1 & w2 & [[=] | [= <-]] & Hp). eauto.
  - split; [discriminate | intros (p & w1 & w2 & [H | H] & _); discriminate].
Qed.



Lemma digit_not_space (c : byte) :
  grammar.digit c -> ¬ (c = " "%byte \/ c = x09 \/ c = x0d \/ c = x0a).
Proof.
  unfold grammar.digit. intros Hd [-> | [-> | [-> | ->]]];
    vm_compute in Hd; destruct Hd; congruence.
Qed.

Lemma digits_last (d : byte) (ds : list byte) :
  Forall grammar.digit (d :: ds) ->
  exists l c, d :: ds = l ++ [c] /\ grammar.digit c.
Proof.
  intros H. destruct (d :: ds) as [|x xs _] eqn:E using rev_ind; [discriminate|].
  apply Forall_app in H as [_ H]. inversion H; subst. eauto.
Qed.

Lemma number_last (lit : list byte) :
  grammar.number lit -> exists l c, lit = l ++ [c] /\ grammar.digit c.
Proof.
  intros [sign ints frac exp Hsign Hint Hfrac Hexp].
  destruct Hexp as [-> | (e & sg & d & ds & -> & _ & _ & Hds)].
  - rewrite app_nil_r.
    destruct Hfrac as [-> | (d & ds & -> & Hds)].
    + rewrite app_nil_r.
      destruct Hint as [-> | (d & ds & -> & Hd & _ & Hds)].
      * exists sign, "0"%byte. split; [reflexivity|]. vm_compute. split; discriminate.
      * destruct (digits_last d ds) as (l & c & -> & Hc); [now constructor|].
        exists (sign ++ l), c. split; [now rewrite app_assoc | assumption].
    + destruct (digits_last d ds Hds) as (l & c & -> & Hc).
      exists (sign ++ ints ++ "."%byte :: l), c.
      split; [flatten_text | assumption].
  - destruct (digits_last d ds Hds) as (l & c & -> & Hc).
    exists (sign ++ ints ++ frac ++ e :: sg ++ l), c.
    split; [flatten_text | assumption].
Qed.

Lemma value_last (t : list byte) (v : option any) d e :
  grammar.value t v d e ->
  exists l c, t = l ++ [c] /\ ¬ (c = " "%byte \/ c = x09 \/ c = x0d \/ c = x0a).
Proof.
  intros [ | | | lit Hlit | raw b _ _ | w _ | body vs d' e' _ | w _ | body kvs d' e' _ ].
  - exists (json.bytes_of_string "nul"), "l"%byte.
    split; [reflexivity | intuition discriminate].
  - exists (json.bytes_of_string "tru"), "e"%byte.
    split; [reflexivity | intuition discriminate].
  - exists (json.bytes_of_string "fals"), "e"%byte.
    split; [reflexivity | intuition discriminate].
  - destruct (number_last lit Hlit) as (l & c & -> & Hc).
    exists l, c. split; [reflexivity | now apply digit_not_space].
  - exists (grammar.quote :: raw), grammar.quote.
    split; [reflexivity | unfold grammar.quote; intuition discriminate].
  - exists ("["%byte :: w), "]"%byte. split; [reflexivity | intuition discriminate].
  - exists ("["%byte :: body), "]"%byte. split; [reflexivity | intuition discriminate].
  - exists ("{"%byte :: w), "}"%byte. split; [reflexivity | intuition discriminate].
  - exists ("{"%byte :: body), "}"%byte. split; [reflexivity | intuition discriminate].
Qed.

Lemma spaces_suffix (w : list byte) :
  forall (l : list byte) (c : byte) (b data : list byte),
    grammar.spaces w -> grammar.spaces b ->
    ¬ (c = " "%byte \/ c = x09 \/ c = x0d \/ c = x0a) ->
    l ++ c :: b = data ++ w ->
    exists b', b = b' ++ w /\ data = l ++ c :: b'.
Proof.
  induction w as [|x w IH] using rev_ind; intros l c b data Hw Hb Hc Heq.
  - rewrite app_nil_r in Heq. exists b. now rewrite app_nil_r.
  - apply Forall_app in Hw as [Hw Hx]. inversion Hx as [|? ? Hx' _]; subst.
    destruct b as [|y b _] using rev_ind.
    + rewrite app_assoc in Heq. apply app_inj_tail in Heq as [_ ->]. contradiction.
    + apply Forall_app in Hb as [Hb _].
      rewrite app_comm_cons, !app_assoc in Heq.
      apply app_inj_tail in Heq as [Heq ->].
      destruct (IH l c b data Hw Hb Hc Heq) as (b' & -> & ->).
      exists b'. split; [now rewrite app_assoc | reflexivity].
Qed.

Lemma document_padded (w1 w2 data : list byte) (v : option any) d e :
  grammar.spaces w1 -> grammar.spaces w2 ->
  grammar.document (w1 ++ data ++ w2) v d e <-> grammar.document data v d e.
Proof.
  intros Hw1 Hw2. split.
  - intros (a & t & b & Ha & Ht & Hb & Heq).
    assert (Hskip : json.skip_space (data ++ w2) = t ++ b).
    { rewrite <- (skip_space_app w1 _ Hw1), Heq.
      apply (skip_space_value a t b v d e Ha Ht). }
    destruct (skip_space_split (data ++ w2)) as (a' & Ha' & Hsplit).
    rewrite Hskip in Hsplit.
    destruct (value_last t v d e Ht) as (l & c & Hl & Hc).
    rewrite Hl in Hsplit. symmetry in Hsplit.
    rewrite <- !app_assoc in Hsplit. rewrite app_assoc in Hsplit. simpl in Hsplit.
    destruct (spaces_suffix w2 (a' ++ l) c b data Hw2 Hb Hc Hsplit)
      as (b' & -> & ->).
    apply Forall_app in Hb as [Hb' _].
    exists a', t, b'. repeat split; try assumption.
    rewrite Hl. flatten_text.
  - intros (a & t & b & Ha & Ht & Hb & ->).
    exists (w1 ++ a), t, (b ++ w2).
    repeat split; auto using spaces_app. flatten_text.
Qed.

(** X8. White space around a JSON payload does not change what it decodes
    to: the payload with spaces, tabs and line ends in front and behind
    gives a value and a nil error exactly when the bare payload does, and
    then the same value. *)
Theorem getValue_json_padding (w1 w2 payload : list byte) (v : option any) :
  grammar.spaces w1 -> grammar.spaces w2 ->
  (getValue (JsonVal (w1 ++ payload ++ w2)) = Returns (v, None) <->
   getValue (JsonVal payload) = Returns (v, None)) /\
  (getValue (JsonIetfVal (w1 ++ payload ++ w2)) = Returns (v, None) <->
   getValue (JsonIetfVal payload) = Returns (v, None)).
Proof.
  intros Hw1 Hw2.
  assert (H : getValue (JsonVal (w1 ++ payload ++ w2)) = Returns (v, None) <->
              getValue (JsonVal payload) = Returns (v, None)).
  { rewrite !getValue_json_iff.
    split; intros (d & Hd & Hdoc); exists d; (split; [assumption|]);
      now apply (document_padded w1 w2 payload v d None Hw1 Hw2). }
  split; [exact H|].
  destruct (getValue_json_Unmarshal payload) as [_ ->].
  destruct (getValue_json_Unmarshal (w1 ++ payload ++ w2)) as [_ ->].
  exact H.
Qed.

Lemma getValue_json_padding_witness :
  getValue (JsonVal ([" "%byte] ++ json.bytes_of_string "true" ++ [x0a]))
    = Returns (Some (go_bool true), None).
Proof.
  apply (getValue_json_padding [" "%byte] [x0a] (json.bytes_of_string "true")).
  - constructor; [left; reflexivity | constructor].
  - constructor; [do 3 right; reflexivity | constructor].
  - vm_compute. reflexivity.
Defined.

(** ** The consumers *)

Lemma consumer_cases (consumer : selected -> list string -> list string * bool) :
  consumer = printer \/ consumer = gather ->
  (forall m out, consumer (case_recv m) out = (out ++ [m], true)) /\
  (forall out, consumer case_Done out = (out, false)).
Proof. intros [-> | ->]; split; reflexivity. Qed.




(** X10. What a consumer has printed or gathered is never taken back or
    reordered: along every execution the sink of an earlier state is a
    prefix of the sink of a later one, so [gather] keeps what [*ls] held
    when it started. *)
Theorem consumers_only_append
  (consumer : selected -> list string -> list string * bool)
  (a a' : aggregator) :
  consumer = printer \/ consumer = gather ->
  rtc (step consumer) a a' ->
  sink a `prefix_of` sink a'.
Proof.
  intros Hc Hsteps. destruct (consumer_cases consumer Hc) as [Hrecv HDone].
  induction Hsteps as [a | a a1 a2 Hstep _ IH]; [reflexivity|].
  etrans; [|exact IH].
  destruct Hstep as [a0 m Hfree | a0 m Hrun Hbuf | a0 | a0 m rest Hrun Hbuf | a0 Hrun Hcan];
    unfold consume; rewrite ?Hrecv, ?HDone; simpl;
    reflexivity || (now apply prefix_app_r).
Qed.

Lemma consumers_only_append_witness :
  sink (start 0 ["x"]) `prefix_of` sink one_gathered.
Proof.
  apply (consumers_only_append gather (start 0 ["x"]) one_gathered).
  - right. reflexivity.
  - apply rtc_once. apply (step_handoff gather (start 0 ["x"]) "a"); reflexivity.
Defined.

(** X11. Losing items is never forced: from every state in which the
    consumer is still in its loop there is an execution in which it
    receives everything that waits in the channel, in order, and is still
    running. *)
Theorem consumers_can_drain
  (consumer : selected -> list string -> list string * bool)
  (a : aggregator) :
  consumer = printer \/ consumer = gather ->
  running a = true ->
  exists a',
    rtc (step consumer) a a' /\ buffer a' = [] /\ running a' = true /\
    sink a' = sink a ++ buffer a /\ sent a' = sent a.
Proof.
  intros Hc. destruct (consumer_cases consumer Hc) as [Hrecv _].
  remember (buffer a) as l eqn:Hl. revert a Hl.
  induction l as [|m l IH]; intros a Hl Hrun.
  - exists a. rewrite app_nil_r. repeat split; auto. apply rtc_refl.
  - symmetry in Hl.
    pose proof (step_recv consumer a m l Hrun Hl) as Hstep.
    unfold consume in Hstep. rewrite Hrecv in Hstep.
    match type of Hstep with step _ _ ?b => destruct (IH b) as (a' & Hs & Hb & Hr & Hsink & Hsent) end;
      [reflexivity | reflexivity |].
    exists a'. simpl in *. repeat split; try assumption.
    + eapply rtc_l; eassumption.
    + now rewrite Hsink, <- app_assoc.
Qed.

Lemma consumers_can_drain_witness :
  exists a',
    rtc (step gather) one_waiting a' /\ buffer a' = [] /\ running a' = true /\
    sink a' = sink one_waiting ++ buffer one_waiting /\
    sent a' = sent one_waiting.
Proof.
  apply (consumers_can_drain gather one_waiting).
  - right. reflexivity.
  - reflexivity.
Defined.

(** ** The connection factory *)

(** Every case of a run of [createGrpcConn]: the settings tested, the
    answers of the world and the errors in them. *)
Ltac run_cases w :=
  repeat (simpl;
          match goal with
          | |- context [answer w ?X ?c ?st] =>
            let H := fresh "Hans" in
            destruct (answer w X c st) as [? ?] eqn:H
          | x : (_ * _)%type |- _ => destruct x
          | x : unit |- _ => destruct x
          | |- context [decide ?P] => destruct (decide P)
          | |- context [bool_decide ?P] => destruct (bool_decide P)
          | |- context [match ?e with Some _ => _ | None => _ end] => destruct e
          | |- context [if ?b then _ else _] => destruct b
          end).

(** X12. Whenever the timeout setting parses, [createGrpcConn] dials the
    address exactly once, as its last call, with the timeout, blocking,
    the receive limit and the proxy option as configured followed by one
    security option; it returns the connection of the dial, or a nil
    connection and the error of the dial. *)
Theorem createGrpcConn_dials_once
  (time_ParseDuration : string -> Duration * option error)
  (pem_certificates : list byte -> list x509_Certificate)
  (v : settings) (address : string) (d : Duration)
  (w : world) (st : world_state w) :
  time_ParseDuration (timeout v) = (d, None) ->
  exists security conn err,
    let dial := Event (grpc_Dial address (base_options v d ++ [security])) (conn, err) in
    let r := run w (createGrpcConn time_ParseDuration pem_certificates v address) st in
    List.filter dials r.1.2 = [dial] /\
    last r.1.2 = Some dial /\
    (security = WithInsecure \/ exists c, security = WithTransportCredentials_NewTLS c) /\
    r.1.1 = match err with Some e => (None, Some e) | None => (conn, None) end.
Proof.
  intros Hparse. unfold createGrpcConn, base_options, loadCerts, loadCACerts,
    AppendCertsFromPEM, mbind, io_mbind, perform.
  rewrite Hparse.
  destruct (proxy_from_env v), (insecure v);
    run_cases w;
    eexists _, _, _; (split; [reflexivity|]); (split; [reflexivity|]);
    (split; [(left; reflexivity) || (right; eexists; reflexivity) | reflexivity]).
Qed.

Lemma createGrpcConn_dials_once_witness :
  exists security conn err,
    let dial := Event (grpc_Dial "10.0.0.1:57400"
                         (base_options settings_tls_files 30000000000%Z ++ [security]))
                  (conn, err) in
    let r := run world_files
               (createGrpcConn ParseDuration_default pem_one settings_tls_files
                  "10.0.0.1:57400") tt in
    List.filter dials r.1.2 = [dial] /\
    last r.1.2 = Some dial /\
    (security = WithInsecure \/ exists c, security = WithTransportCredentials_NewTLS c) /\
    r.1.1 = match err with Some e => (None, Some e) | None => (conn, None) end.
Proof.
  apply (createGrpcConn_dials_once ParseDuration_default pem_one
           settings_tls_files "10.0.0.1:57400" 30000000000%Z world_files tt).
  reflexivity.
Defined.



(** X14. On a secured connection for which no key pair and no CA file is
    configured, [createGrpcConn] reads nothing and logs nothing: its one
    call is the dial, whose TLS configuration holds one zero certificate
    and an empty root pool. *)
Theorem createGrpcConn_tls_nothing_configured
  (time_ParseDuration : string -> Duration * option error)
  (pem_certificates : list byte -> list x509_Certificate)
  (v : settings) (address : string) (d : Duration)
  (w : world) (st : world_state w) :
  time_ParseDuration (timeout v) = (d, None) ->
  insecure v = false ->
  tls_cert v = "" \/ tls_key v = "" ->
  tls_ca v = "" ->
  exists answer,
    (run w (createGrpcConn time_ParseDuration pem_certificates v address) st).1.2 =
      [Event (grpc_Dial address
                (base_options v d ++
                 [WithTransportCredentials_NewTLS
                    {| Renegotiation := RenegotiateNever;
                       InsecureSkipVerify := skip_verify v;
                       Certificates := [zero_Certificate];
                       RootCAs := Some [] |}])) answer].
Proof.
  intros Hparse Hsec Hpair Hca.
  unfold createGrpcConn, base_options, loadCerts, loadCACerts,
    AppendCertsFromPEM, mbind, io_mbind, perform.
  rewrite Hparse, Hsec, Hca.
  destruct (decide (tls_cert v ≠ "" ∧ tls_key v ≠ "")) as [[Hc Hk]|_];
    [destruct Hpair; contradiction|].
  destruct (proxy_from_env v);
    run_cases w; try contradiction; eexists; reflexivity.
Qed.

Lemma createGrpcConn_tls_nothing_configured_witness :
  exists answer,
    (run world_files
       (createGrpcConn ParseDuration_default pem_one settings_tls_default
          "10.0.0.1:57400") tt).1.2 =
      [Event (grpc_Dial "10.0.0.1:57400"
                (base_options settings_tls_default 30000000000%Z ++
                 [WithTransportCredentials_NewTLS
                    {| Renegotiation := RenegotiateNever;
                       InsecureSkipVerify := skip_verify settings_tls_default;
                       Certificates := [zero_Certificate];
                       RootCAs := Some [] |}])) answer].
Proof.
  apply (createGrpcConn_tls_nothing_configured ParseDuration_default pem_one
           settings_tls_default "10.0.0.1:57400" 30000000000%Z world_files tt);
    first [reflexivity | left; reflexivity].
Defined.

(** ** The log set-up *)

(** Every case of a run of the log set-up or of [initConfig]. *)
Ltac proc_cases w :=
  repeat (simpl;
          match goal with
          | |- context [respond w ?X ?c ?st] =>
            let H := fresh "Hans" in
            destruct (respond w X c st) as [? ?] eqn:H
          | x : (_ * _)%type |- _ => destruct x
          | x : unit |- _ => destruct x
          | |- context [decide ?P] => destruct (decide P)
          | |- context [match ?e with Some _ => _ | None => _ end] => is_var e; destruct e
          end).

(** X15. With [nolog] or [logstdout] set, the set-up before a command
    touches no file: it makes no call under [nolog] and only sets the
    logger's flags under [logstdout], leaves [f] the writer that does
    nothing or the standard output, and the run after the command then
    closes nothing. *)
Theorem PersistentPreRun_without_log_file
  (filepath_Dir : string -> string) (p : process)
  (w : system) (st : system_state w) :
  nolog p = true \/ logstdout p = true ->
  exists p',
    let r := run_proc w (PersistentPreRun filepath_Dir p) st in
    r.1.1 = Returned p' /\
    r.1.2 = (if nolog p then []
             else [SysEvent (log_SetFlags (Z.lor LstdFlags Lmicroseconds)) tt]) /\
    f p' = Some (if nolog p then myWriteCloser_zero else os_Stdout) /\
    forall st', run_proc w (PersistentPostRun p') st' = (Returned tt, [], st').
Proof.
  intros Hmode. unfold PersistentPreRun, PersistentPostRun.
  destruct (nolog p) eqn:Hnolog.
  - exists (set_f myWriteCloser_zero p). simpl. rewrite Hnolog.
    split; [reflexivity|]. split; [reflexivity|]. split; reflexivity.
  - destruct Hmode as [|Hout]; [discriminate|]. rewrite Hout.
    unfold mbind, proc_mbind, call_sys.
    proc_cases w. exists (set_f os_Stdout p). simpl. rewrite Hnolog, Hout.
    split; [reflexivity|]. split; [reflexivity|]. split; reflexivity.
Qed.

Lemma PersistentPreRun_without_log_file_witness :
  exists p',
    let r := run_proc system_plain (PersistentPreRun Dir_plain process_nolog) tt in
    r.1.1 = Returned p' /\
    r.1.2 = (if nolog process_nolog then []
             else [SysEvent (log_SetFlags (Z.lor LstdFlags Lmicroseconds)) tt]) /\
    f p' = Some (if nolog process_nolog then myWriteCloser_zero else os_Stdout) /\
    forall st', run_proc system_plain (PersistentPostRun p') st' = (Returned tt, [], st').
Proof.
  apply (PersistentPreRun_without_log_file Dir_plain process_nolog system_plain tt).
  left. reflexivity.
Defined.

(** X16. When the log goes to a file, its path is the "log-file" setting,
    or [$HOME/.gnmi/gnmiClient.log] when the setting is empty; the HOME
    variable is asked for in that case only.  The directory made is the
    directory of that path, the file opened is that path, and on return
    the setting holds it. *)
Theorem PersistentPreRun_log_path
  (filepath_Dir : string -> string) (p : process)
  (w : system) (st : system_state w) :
  nolog p = false -> logstdout p = false ->
  let r := run_proc w (PersistentPreRun filepath_Dir p) st in
  let home := (respond w _ (os_Getenv "HOME") st).1 in
  let path :=
    if decide (log_file p = "") then (home ++ "/.gnmi/gnmiClient.log")%string
    else log_file p in
  Forall (on_path filepath_Dir path) r.1.2 /\
  existsb asks_home r.1.2 = bool_decide (log_file p = "") /\
  forall p', r.1.1 = Returned p' -> log_file p' = path.
Proof.
  intros Hnolog Hout. unfold PersistentPreRun.
  rewrite Hnolog, Hout. unfold mbind, proc_mbind, call_sys.
  destruct (decide (log_file p = "")) as [Hempty|Hset].
  - rewrite bool_decide_eq_true_2 by assumption.
    proc_cases w;
      (split; [repeat constructor|]); (split; [reflexivity|]);
      intros p' [= <-]; reflexivity.
  - rewrite bool_decide_eq_false_2 by assumption.
    proc_cases w;
      (split; [repeat constructor|]); (split; [reflexivity|]);
      intros p' [= <-]; reflexivity.
Qed.

Lemma PersistentPreRun_log_path_witness :
  let r := run_proc system_plain (PersistentPreRun Dir_plain process_start) tt in
  let home := (respond system_plain _ (os_Getenv "HOME") tt).1 in
  let path :=
    if decide (log_file process_start = "")
    then (home ++ "/.gnmi/gnmiClient.log")%string
    else log_file process_start in
  Forall (on_path Dir_plain path) r.1.2 /\
  existsb asks_home r.1.2 = bool_decide (log_file process_start = "") /\
  forall p', r.1.1 = Returned p' -> log_file p' = path.
Proof.
  apply (PersistentPreRun_log_path Dir_plain process_start system_plain tt);
    reflexivity.
Defined.


(** X18. From a process that holds no writer yet and logs to a file, a
    set-up that returns is followed by a run after the command that
    closes exactly the file the set-up opened.  When the log directory
    could not be made, the set-up returned without a writer, and the run
    after the command panics. *)
Theorem PersistentPostRun_closes_opened
  (filepath_Dir : string -> string) (p p' : process)
  (w : system) (st st' : system_state w) :
  nolog p = false -> logstdout p = false -> f p = None ->
  (run_proc w (PersistentPreRun filepath_Dir p) st).1.1 = Returned p' ->
  let pre := run_proc w (PersistentPreRun filepath_Dir p) st in
  let post := run_proc w (PersistentPostRun p') st' in
  omap closed_file post.1.2 = omap opened_file pre.1.2 /\
  (post.1.1 = Panicked <-> existsb mkdir_failed pre.1.2 = true) /\
  (post.1.1 = Panicked \/ post.1.1 = Returned tt).
Proof.
  intros Hnolog Hout Hf. unfold PersistentPreRun.
  rewrite Hnolog, Hout. unfold mbind, proc_mbind, call_sys.
  proc_cases w; intros [= <-];
    unfold PersistentPostRun, f_Close; simpl; rewrite ?Hnolog, ?Hout, ?Hf; simpl;
    unfold mbind, proc_mbind, call_sys; simpl;
    try match goal with
        | |- context [respond w ?X (Close ?c) ?s] =>
          destruct (respond w X (Close c) s) as [? ?]
        end; simpl;
    (split; [reflexivity|]);
    (split; [split; intros Hx; first [reflexivity | discriminate Hx]|]);
    first [left; reflexivity | right; reflexivity].
Qed.

Lemma PersistentPostRun_closes_opened_witness :
  let p' := set_f (os_File (Some 3))
              (set_log_file "/home/u/.gnmi/gnmiClient.log" process_start) in
  let pre := run_proc system_plain (PersistentPreRun Dir_plain process_start) tt in
  let post := run_proc system_plain (PersistentPostRun p') tt in
  omap closed_file post.1.2 = omap opened_file pre.1.2 /\
  (post.1.1 = Panicked <-> existsb mkdir_failed pre.1.2 = true) /\
  (post.1.1 = Panicked \/ post.1.1 = Returned tt).
Proof.
  apply (PersistentPostRun_closes_opened Dir_plain process_start _ system_plain tt tt);
    reflexivity.
Defined.

(** ** The configuration file *)

(** X19. [initConfig] either returns, and then its last call asks viper
    to read the configuration, whose error it ignores, after the file of
    the [--config] flag or the home directory was handed to viper; or it
    ends the process with code 1, which happens only without the flag,
    when the home directory is not found, and before any call to
    viper. *)
Theorem initConfig_reads_or_exits
  (p : process) (w : system) (st : system_state w) :
  let r := run_proc w (initConfig p) st in
  (r.1.1 = Returned tt /\
   (exists err, last r.1.2 = Some (SysEvent viper_ReadInConfig err)) /\
   (cfgFile p <> "" ->
    exists err, r.1.2 = [SysEvent (viper_SetConfigFile (cfgFile p)) tt;
                         SysEvent viper_ReadInConfig err])) \/
  (r.1.1 = Exited 1 /\ cfgFile p = "" /\
   existsb calls_viper r.1.2 = false /\
   exists home e, r.1.2 = [SysEvent homedir_Dir (home, Some e);
                           SysEvent (fmt_Println_error e) tt]).
Proof.
  unfold initConfig, mbind, proc_mbind, call_sys.
  proc_cases w.
  - left. split; [reflexivity|]. split; [eexists; reflexivity|].
    intros _. eexists; reflexivity.
  - right. split; [reflexivity|]. split; [apply dec_stable; assumption|].
    split; [reflexivity|]. eexists _, _; reflexivity.
  - left. split; [reflexivity|]. split; [eexists; reflexivity|].
    intros Hset. contradiction.
Qed.
